(** * Scene glue of the Vite/React-three frontend, embedded in Rocq

    The development follows [src/App.tsx] (the avatar animation
    controller [AvatarLobsterAI], the water object [ObjectWater], the
    camera rig [CamRig]) and the Vite configuration file.

    Conventions of the embedding:
    - a JavaScript number is a binary64 float ([float] of the primitive
      floats), so [0.44 * 2] is computed as the engine computes it;
    - a JavaScript object used as a table is a [gmap] keyed by strings,
      a missing key ([undefined]) is [None];
    - the methods of the rendering library (reset, crossFadeFrom, setLoop,
      play, decompose, ...) are opaque: a call is recorded in a log, in
      program order, with its arguments; the one call the controller can
      make that throws, crossFadeFrom given undefined, is modelled in
      [LobsterThrow];
    - a React effect is a function from the values captured at render time
      and the mutable cells it touches to the new cells; state updates
      requested with a setter are queued and committed when the effect
      returns. *)

From Stdlib Require Import Floats.
From stdpp Require Import gmap strings list fin_maps.

Local Open Scope string_scope.

(* Decimal literals denote the nearest binary64 value, as in JavaScript. *)
Set Warnings "-inexact-float".

(** JavaScript numbers. *)
Abbreviation number := float.

(* ===================================================================== *)
(** ** The avatar animation controller ([AvatarLobsterAI])                 *)
(* ===================================================================== *)

Module Lobster.

(** The animation status published by the character-controller store
    ([state.animationStatus]).  The store is external; its status type is
    the union of these seven string literals. *)
Inductive AnimationStatus :=
| IDLE | WALK | RUN | JUMP_START | JUMP_IDLE | JUMP_FALL | JUMP_LAND.

(** The string a status is at run time. *)
Definition statusKey (s : AnimationStatus) : string :=
  match s with
  | IDLE => "IDLE"
  | WALK => "WALK"
  | RUN => "RUN"
  | JUMP_START => "JUMP_START"
  | JUMP_IDLE => "JUMP_IDLE"
  | JUMP_FALL => "JUMP_FALL"
  | JUMP_LAND => "JUMP_LAND"
  end.

Definition allStatuses : list AnimationStatus :=
  [IDLE; WALK; RUN; JUMP_START; JUMP_IDLE; JUMP_FALL; JUMP_LAND].

(** [statusToActionMap], the object literal of lines 197-207. *)
Definition statusToActionMap : gmap string string :=
  <["IDLE" := "IDLE"]>
  (<["WALK" := "WALK"]>
  (<["RUN" := "JOG"]>
  (<["JUMP_START" := "JUMP_START"]>
  (<["JUMP_IDLE" := "JUMP_LOOP"]>
  (<["JUMP_FALL" := "JUMP_LOOP"]>
  (<["JUMP_LAND" := "JUMP_LAND"]> ∅)))))).

(** Loop modes of the animation library; the controller only names
    [LoopOnce]. *)
Inductive LoopMode := LoopOnce | LoopRepeat | LoopPingPong.

(** The two properties of an animation action that the controller
    assigns.  Everything else of an action is private to the library. *)
Record AnimationAction := mkAction {
  timeScale : number;
  clampWhenFinished : bool
}.

(** Calls into the animation library, on the action registered under the
    clip name [a].  [crossFadeFrom] receives [actions[prevActionName]],
    which is [undefined] ([None]) when no such clip is registered. *)
Inductive MixerCall :=
| reset (a : string)
| crossFadeFrom (a : string) (fadeOutAction : option string) (duration : number)
| setLoop (a : string) (mode : LoopMode) (repetitions : number)
| play (a : string).

(** The names the six clips are given (lines 155-185), in the order of
    the [clips] array. *)
Definition clipNames : list string :=
  ["IDLE"; "WALK"; "JOG"; "JUMP_START"; "JUMP_LOOP"; "JUMP_LAND"].

(** The actions table when every motion file carries its clip: one action
    per clip name, each as the library creates it ([fresh]). *)
Definition actionsOf (fresh : AnimationAction) : gmap string AnimationAction :=
  list_to_map ((fun name => (name, fresh)) <$> clipNames).

(** *** The cells an effect run can write *)

Record Cells := mkCells {
  queued : option bool;                     (* last setCanPlayNext(v), if any *)
  ref_current : string;                     (* prevActionNameRef.current *)
  table : gmap string AnimationAction;      (* the actions table *)
  log : list MixerCall                      (* library calls so far *)
}.

(** A small state monad for effect bodies. *)
Definition Eff (A : Type) : Type := Cells -> A * Cells.

Definition ret {A} (x : A) : Eff A := fun w => (x, w).

Definition bind {A B} (m : Eff A) (k : A -> Eff B) : Eff B :=
  fun w => let '(x, w') := m w in k x w'.

#[global] Instance Eff_ret : MRet Eff := @ret.
#[global] Instance Eff_bind : MBind Eff := fun A B k m => bind m k.

Definition when (b : bool) (m : Eff unit) : Eff unit :=
  if b then m else ret tt.

Definition setCanPlayNext (v : bool) : Eff unit :=
  fun w => (tt, mkCells (Some v) (ref_current w) (table w) (log w)).

Definition readRef : Eff string :=
  fun w => (ref_current w, w).

Definition writeRef (name : string) : Eff unit :=
  fun w => (tt, mkCells (queued w) name (table w) (log w)).

Definition lookupAction (name : string) : Eff (option string) :=
  fun w => ((fun _ => name) <$> table w !! name, w).

Definition setTimeScale (a : string) (v : number) : Eff unit :=
  fun w => (tt, mkCells (queued w) (ref_current w)
                  (alter (fun x => mkAction v (clampWhenFinished x)) a (table w))
                  (log w)).

Definition setClampWhenFinished (a : string) (v : bool) : Eff unit :=
  fun w => (tt, mkCells (queued w) (ref_current w)
                  (alter (fun x => mkAction (timeScale x) v) a (table w))
                  (log w)).

Definition call (c : MixerCall) : Eff unit :=
  fun w => (tt, mkCells (queued w) (ref_current w) (table w) (log w ++ [c])).

(** *** The status effect (lines 209-283)

    [ecctrlActionName] and [canPlayNext] are the values captured by the
    render that scheduled the effect.  Here every library call returns;
    [LobsterThrow.statusEffectBodyE] below is the same body with the one
    call that can throw, [crossFadeFrom] given [undefined], and the two
    agree whenever the action to fade out is registered. *)
Definition statusEffectBody (ecctrlActionName : AnimationStatus)
    (canPlayNext : bool) : Eff unit :=
  match statusToActionMap !! statusKey ecctrlActionName with
  | None => ret tt
  | Some nextActionName =>
    nextAction ← lookupAction nextActionName;
    match nextAction with
    | None => ret tt
    | Some nextAction =>
      prevActionName ← readRef;
      when (bool_decide (nextActionName <> prevActionName) && canPlayNext) (
        (if bool_decide (Some nextActionName = statusToActionMap !! "JUMP_START")
            || bool_decide (Some nextActionName = statusToActionMap !! "JUMP_LAND")
         then
           setCanPlayNext false ;;
           setTimeScale nextAction 0.5 ;;
           call (reset nextAction) ;;
           fadeOut ← lookupAction prevActionName;
           call (crossFadeFrom nextAction fadeOut 0.1) ;;
           call (setLoop nextAction LoopOnce 1) ;;
           call (play nextAction) ;;
           setClampWhenFinished nextAction true
         else
           setCanPlayNext true ;;
           setTimeScale nextAction 1 ;;
           call (reset nextAction) ;;
           fadeOut ← lookupAction prevActionName;
           call (crossFadeFrom nextAction fadeOut 0.2) ;;
           call (play nextAction)) ;;
        writeRef nextActionName) ;;
      when (negb canPlayNext
            && bool_decide (Some prevActionName = statusToActionMap !! "JUMP_START")
            && bool_decide (statusKey ecctrlActionName <> "JUMP_IDLE")
            && bool_decide (statusKey ecctrlActionName <> "JUMP_START"))
        (setCanPlayNext true) ;;
      when (negb canPlayNext
            && bool_decide (Some prevActionName = statusToActionMap !! "JUMP_LAND")
            && bool_decide (statusKey ecctrlActionName <> "IDLE")
            && bool_decide (statusKey ecctrlActionName <> "JUMP_LAND"))
        (setCanPlayNext true) ;;
      when (bool_decide (statusKey ecctrlActionName = "RUN"))
        (setTimeScale nextAction 0.45) ;;
      when (bool_decide (statusKey ecctrlActionName = "WALK"))
        (setTimeScale nextAction 0.45) ;;
      when (bool_decide (statusKey ecctrlActionName = "JUMP_START"))
        (setTimeScale nextAction (0.5 * 2)) ;;
      when (bool_decide (statusKey ecctrlActionName = "JUMP_LAND"))
        (setTimeScale nextAction (0.44 * 2)) ;;
      when (bool_decide (statusKey ecctrlActionName = "JUMP_IDLE"))
        (setTimeScale nextAction 0) ;;
      when (bool_decide (statusKey ecctrlActionName = "JUMP_FALL"))
        (setTimeScale nextAction 0)
    end
  end.

(** *** The controller between two effect runs *)

Record Controller := mkController {
  canPlayNext : bool;                        (* useState(true) *)
  prevActionNameRef : string;                (* useRef("IDLE").current *)
  actions : gmap string AnimationAction;     (* from useAnimations *)
  calls : list MixerCall
}.

Definition cellsOf (c : Controller) : Cells :=
  mkCells None (prevActionNameRef c) (actions c) (calls c).

(** Committing an effect run: the queued state update, if any, becomes
    the state of the next render. *)
Definition commit (c : Controller) (w : Cells) : Controller :=
  mkController (default (canPlayNext c) (queued w))
               (ref_current w) (table w) (log w).

Definition runEffect (c : Controller) (m : Eff unit) : Controller :=
  commit c (snd (m (cellsOf c))).

Definition statusEffect (ecctrlActionName : AnimationStatus) (c : Controller)
    : Controller :=
  runEffect c (statusEffectBody ecctrlActionName (canPlayNext c)).

(** The listener of the mixer's 'finished' event (lines 285-300);
    [clipName] is [e.action._clip.name]. *)
Definition onFinishedBody (clipName : string) (canPlayNext : bool) : Eff unit :=
  when (negb canPlayNext
        && (bool_decide (Some clipName = statusToActionMap !! "JUMP_START")
            || bool_decide (Some clipName = statusToActionMap !! "JUMP_LAND")))
    (setCanPlayNext true).

Definition onFinished (clipName : string) (c : Controller) : Controller :=
  runEffect c (onFinishedBody clipName (canPlayNext c)).

(** The effect of lines 191-195, run when the actions table is handed to
    the component. *)
Definition idleEffectBody : Eff unit :=
  idle ← lookupAction "IDLE";
  match idle with
  | Some idle => call (play idle)
  | None => ret tt
  end.

Definition idleEffect (c : Controller) : Controller :=
  runEffect c idleEffectBody.

(** The component before its first effect: [useState(true)],
    [useRef("IDLE")], nothing called yet. *)
Definition initial (acts : gmap string AnimationAction) : Controller :=
  mkController true "IDLE" acts [].

(** Mounting runs the effects in the order they are declared: first the
    IDLE effect, then the status effect with the status of the first
    render. *)
Definition mount (acts : gmap string AnimationAction)
    (ecctrlActionName : AnimationStatus) : Controller :=
  statusEffect ecctrlActionName (idleEffect (initial acts)).

(** What can happen to a mounted controller: the status effect runs (the
    store published a status, or [canPlayNext] changed and the effect is
    re-run with the current status), or the mixer reports a finished
    clip. *)
Inductive Event :=
| StatusUpdate (ecctrlActionName : AnimationStatus)
| Finished (clipName : string).

Definition step (c : Controller) (e : Event) : Controller :=
  match e with
  | StatusUpdate s => statusEffect s c
  | Finished clipName => onFinished clipName c
  end.

Definition run (c : Controller) (es : list Event) : Controller :=
  foldl step c es.

Inductive reachable (acts : gmap string AnimationAction) : Controller -> Prop :=
| reachable_mount s : reachable acts (mount acts s)
| reachable_step c e : reachable acts c -> reachable acts (step c e).

(** The clips started as one-shot animations. *)
Definition oneShot (name : string) : Prop :=
  name = "JUMP_START" \/ name = "JUMP_LAND".

End Lobster.

(* ===================================================================== *)
(** ** Effects with a dependency array                                    *)
(* ===================================================================== *)

Module React.

(** [useEffect(f, deps)]: [f] runs after the first render, and after a
    later render when [deps] differs from the array of the render before.
    [prev] is the array of the previous render, [None] on the first. *)
Definition effectRuns {D} `{EqDecision D} (prev : option (list D))
    (deps : list D) : bool :=
  match prev with
  | None => true
  | Some d => bool_decide (d <> deps)
  end.

End React.

(* ===================================================================== *)
(** ** The water object ([ObjectWater])                                   *)
(* ===================================================================== *)

Module Water.

Definition Math_PI : number := 3.141592653589793%float.

Record Vector3 := mkVector3 { x : number; y : number; z : number }.

Inductive Side := FrontSide | BackSide | DoubleSide.

Inductive Wrapping := RepeatWrapping | ClampToEdgeWrapping | MirroredRepeatWrapping.

(** [new PlaneGeometry(width, height)] followed by the geometry calls made
    on it, in order. *)
Inductive GeometryCall := rotateX (angle : number).

Record PlaneGeometry := mkPlaneGeometry {
  width : number;
  height : number;
  geometryCalls : list GeometryCall
}.

(** [new TextureLoader().load(url, onLoad)]: the texture requested and
    what the callback assigns when it has loaded. *)
Record TextureRequest := mkTextureRequest {
  url : string;
  onLoad_wrapS : Wrapping;
  onLoad_wrapT : Wrapping
}.

(** The options object handed to the water constructor. *)
Record WaterOptions := mkWaterOptions {
  resolutionScale : number;
  sunDirection : Vector3;
  sunColor : number;
  waterColor : string;            (* new Color("#6fb8ac") *)
  distortionScale : number;
  waterNormals : TextureRequest
}.

(** The mesh returned by the external constructor, as far as the
    component reads or writes it. *)
Record WaterMesh := mkWaterMesh {
  geometry : PlaneGeometry;
  options : WaterOptions;
  material_side : Side;
  position : Vector3;
  rotation : Vector3
}.

(** The component: [api] of [useState({})] holds the mesh to display once
    it is built; [built] lists the constructor calls made so far;
    [lastDeps] is the dependency array of the render before. *)
Record Component := mkComponent {
  api_display : option WaterMesh;
  built : list WaterMesh;
  lastDeps : option (list unit)
}.

Section ObjectWater.

(** What the library's constructor leaves in the fields the component
    then assigns or keeps. *)
Variable side0 : Side.
Variable position0 : Vector3.
Variable rotation0 : Vector3.

Definition new_WaterMesh (geo : PlaneGeometry) (opts : WaterOptions) : WaterMesh :=
  mkWaterMesh geo opts side0 position0 rotation0.

(** Body of the effect (lines 371-397). *)
Definition buildWater : WaterMesh :=
  let geo := mkPlaneGeometry 10000 10000 [] in
  let geo := mkPlaneGeometry (width geo) (height geo)
               (geometryCalls geo ++ [rotateX (Math_PI * -0.5)]) in
  let water := new_WaterMesh geo
    (mkWaterOptions 0.5 (mkVector3 0 1 0) 0xffffff "#6fb8ac" 5
       (mkTextureRequest "/textures/waternormals.jpg"
          RepeatWrapping RepeatWrapping)) in
  let water := mkWaterMesh (geometry water) (options water) DoubleSide
                 (position water) (rotation water) in
  let water := mkWaterMesh (geometry water) (options water) (material_side water)
                 (mkVector3 (x (position water)) (-5) (z (position water)))
                 (rotation water) in
  let water := mkWaterMesh (geometry water) (options water) (material_side water)
                 (position water)
                 (mkVector3 (Math_PI * 0) (y (rotation water)) (z (rotation water))) in
  water.

(** The dependency array of the effect is the empty array. *)
Definition deps : list unit := [].

(** One render of the component followed by its effects. *)
Definition render (c : Component) : Component :=
  if React.effectRuns (lastDeps c) deps
  then let water := buildWater in
       mkComponent (Some water) (built c ++ [water]) (Some deps)
  else mkComponent (api_display c) (built c) (Some deps).

Definition unmounted : Component := mkComponent None [] None.

(** The component after [n] renders. *)
Fixpoint renders (n : nat) : Component :=
  match n with
  | O => unmounted
  | S n => render (renders n)
  end.

End ObjectWater.

End Water.

(* ===================================================================== *)
(** ** The camera rig ([CamRig])                                          *)
(* ===================================================================== *)

Module Cam.

Import Water.

Record Quaternion := mkQuaternion {
  qx : number; qy : number; qz : number; qw : number
}.

(** The camera, as far as the rig touches it; [projection] stands for the
    projection matrix the library derives from the other fields. *)
Record Camera {P : Type} := mkCamera {
  cam_position : Vector3;
  cam_quaternion : Quaternion;
  cam_scale : Vector3;
  fov : number;
  far : number;
  near : number;
  projection : P
}.
Arguments Camera : clear implicits.
Arguments mkCamera {P}.

(** The sixteen numbers given to [new Matrix4().fromArray]. *)
Definition m4 : list number :=
  [ 0.9840423933287578; 1.0408340855860843e-17; 0.1779341679717821; 0;
    0.05954104347474225; 0.9423517267593705; -0.3292842043213908; 0;
    -0.16767657043770076; 0.33462400253662705; 0.9273140485577785; 0;
    -136.6004999600759; 272.606995275635; 755.4517743435046; 1 ]%float.

Section CamRig.

Variable P : Type.

(** The library's [Matrix4.decompose] and
    [camera.updateProjectionMatrix]. *)
Variable decompose : list number -> Vector3 * Quaternion * Vector3.
Variable updateProjectionMatrix : Camera P -> Camera P.

(** Body of the effect (lines 97-115); [None] is a missing camera. *)
Definition CamRig (camera : option (Camera P)) : option (Camera P) :=
  match camera with
  | None => None
  | Some camera =>
    let '(p, q, s) := decompose m4 in
    let camera := mkCamera p q s (fov camera) (far camera) (near camera)
                    (projection camera) in
    let camera := mkCamera (cam_position camera) (cam_quaternion camera)
                    (cam_scale camera) 50 (far camera) (near camera)
                    (projection camera) in
    let camera := mkCamera (cam_position camera) (cam_quaternion camera)
                    (cam_scale camera) (fov camera) 15000 (near camera)
                    (projection camera) in
    let camera := mkCamera (cam_position camera) (cam_quaternion camera)
                    (cam_scale camera) (fov camera) (far camera) 5
                    (projection camera) in
    Some (updateProjectionMatrix camera)
  end.

End CamRig.

End Cam.

(* ===================================================================== *)
(** ** The build tool configuration                                       *)
(* ===================================================================== *)

Module Vite.

Record ServerOptions := mkServerOptions {
  host : string;
  port : number;
  allowedHosts : list string
}.

Record UserConfig {Plugin : Type} := mkUserConfig {
  server : ServerOptions;
  plugins : list Plugin
}.
Arguments UserConfig : clear implicits.
Arguments mkUserConfig {Plugin}.

Section Config.

(** [fronthost] is imported from the settings module; [react()] and
    [tailwindcss()] are the values the two plugin factories return. *)
Variable fronthost : string.
Variable Plugin : Type.
Variable react : Plugin.
Variable tailwindcss : Plugin.

(** The object given to [defineConfig]. *)
Definition config : UserConfig Plugin :=
  mkUserConfig
    (mkServerOptions "0.0.0.0" 5173 [fronthost])
    [react; tailwindcss].

End Config.

End Vite.

(* ===================================================================== *)
(** ** The clips array of the avatar ([clips], lines 155-185)             *)
(* ===================================================================== *)

Module Motion.

(** An animation clip: its name, and the rest of it (tracks, duration),
    which the component never reads. *)
Record AnimationClip {T : Type} := mkClip {
  clip_name : string;
  clip_rest : T
}.
Arguments AnimationClip : clear implicits.
Arguments mkClip {T}.

(** The [animations] arrays of the six motion files of lines 136-145. *)
Record MotionFiles {T : Type} := mkMotionFiles {
  fbx_start : list (AnimationClip T);
  fbx_loop : list (AnimationClip T);
  fbx_land : list (AnimationClip T);
  fbx_idle : list (AnimationClip T);
  fbx_run : list (AnimationClip T);
  fbx_walk : list (AnimationClip T)
}.
Arguments MotionFiles : clear implicits.
Arguments mkMotionFiles {T}.

(** [r.name = name; return r]. *)
Definition rename {T} (name : string) (r : AnimationClip T) : AnimationClip T :=
  mkClip name (clip_rest r).

(** The array built by the [useMemo] of lines 155-185. *)
Definition clips {T} (fbx : MotionFiles T) : list (AnimationClip T) :=
  (rename "IDLE" <$> fbx_idle fbx)
  ++ (rename "WALK" <$> fbx_walk fbx)
  ++ (rename "JOG" <$> fbx_run fbx)
  ++ (rename "JUMP_START" <$> fbx_start fbx)
  ++ (rename "JUMP_LOOP" <$> fbx_loop fbx)
  ++ (rename "JUMP_LAND" <$> fbx_land fbx).

End Motion.

(* ===================================================================== *)
(** ** The shadow flags of the avatar scene (lines 306-314)               *)
(* ===================================================================== *)

Module Scene.

(** What an object of the scene graph holds itself: the three flags the
    effect assigns, and the rest. *)
Record Own {T : Type} := mkOwn {
  castShadow : bool;
  receiveShadow : bool;
  frustumCulled : bool;
  rest : T
}.
Arguments Own : clear implicits.
Arguments mkOwn {T}.

#[local] Set Warnings "-register-all".
Inductive Object3D (T : Type) :=
| object3D (own : Own T) (children : list (Object3D T)).
Arguments object3D {T}.

(** Induction on a scene graph, with the property known for every
    child. *)
Fixpoint Object3D_forall_ind {T} (P : Object3D T -> Prop)
    (step : forall own children, Forall P children -> P (object3D own children))
    (o : Object3D T) : P o :=
  match o with
  | object3D own children =>
      step own children
        ((fix all (l : list (Object3D T)) : Forall P l :=
            match l with
            | [] => @List.Forall_nil _ P
            | x :: l' =>
                @List.Forall_cons _ P x l' (Object3D_forall_ind P step x) (all l')
            end) children)
  end.

(** The library's [traverse]: the callback is applied to the object, then
    each child is traversed in order. *)
Fixpoint traverse {T} (callback : Own T -> Own T) (o : Object3D T) : Object3D T :=
  match o with
  | object3D own children =>
      object3D (callback own) (List.map (traverse callback) children)
  end.

(** The callback of lines 307-313; an object of the graph is never
    falsy, so the test [if (it)] always passes. *)
Definition markShadows {T} (it : Own T) : Own T :=
  let it := mkOwn true (receiveShadow it) (frustumCulled it) (rest it) in
  let it := mkOwn (castShadow it) true (frustumCulled it) (rest it) in
  let it := mkOwn (castShadow it) (receiveShadow it) false (rest it) in
  it.

(** Body of the effect: [glb.scene.traverse(...)]. *)
Definition shadowEffect {T} (scene : Object3D T) : Object3D T :=
  traverse markShadows scene.

(** The objects of a graph in the order [traverse] visits them. *)
Fixpoint objects {T} (o : Object3D T) : list (Own T) :=
  match o with
  | object3D own children => own :: List.flat_map objects children
  end.

End Scene.

(* ===================================================================== *)
(** ** Notions used to state properties of the controller                 *)
(* ===================================================================== *)

Module LobsterLog.

Import Lobster.

Local Open Scope list_scope.

(** The status makes the effect give up waiting for the one-shot clip
    [prev] (the two tests of lines 245-263, without the gate). *)
Definition interrupts (prev : string) (s : AnimationStatus) : Prop :=
  (prev = "JUMP_START" /\ s <> JUMP_START /\ s <> JUMP_IDLE)
  \/ (prev = "JUMP_LAND" /\ s <> IDLE /\ s <> JUMP_LAND).

(** The timeScale the effect assigns last for a status (lines 265-282);
    none for IDLE. *)
Definition overrideOf (s : AnimationStatus) : option number :=
  match s with
  | RUN => Some 0.45
  | WALK => Some 0.45
  | JUMP_START => Some (0.5 * 2)
  | JUMP_LAND => Some (0.44 * 2)
  | JUMP_IDLE => Some 0
  | JUMP_FALL => Some 0
  | IDLE => None
  end%float.

(** The calls that start the clip [n] from the clip [prev]. *)
Definition startBlock (acts : gmap string AnimationAction)
    (prev n : string) : list MixerCall :=
  let fadeOut := (fun _ : AnimationAction => prev) <$> acts !! prev in
  if decide (oneShot n)
  then [reset n; crossFadeFrom n fadeOut 0.1; setLoop n LoopOnce 1; play n]
  else [reset n; crossFadeFrom n fadeOut 0.2; play n].

(** The action a call is made on. *)
Definition target (c : MixerCall) : string :=
  match c with
  | reset a => a
  | crossFadeFrom a _ _ => a
  | setLoop a _ _ => a
  | play a => a
  end.

(** A call as the controller is meant to make it: on a registered
    action; a crossfade from another registered action, over 0.1 into a
    one-shot clip and over 0.2 into any other; setLoop only LoopOnce, once,
    on a one-shot clip. *)
Definition wellFormedCall (acts : gmap string AnimationAction)
    (c : MixerCall) : Prop :=
  is_Some (acts !! target c)
  /\ match c with
     | reset a => True
     | play a => True
     | crossFadeFrom a fadeOut duration =>
         (exists b, fadeOut = Some b /\ b <> a /\ is_Some (acts !! b))
         /\ duration = (if decide (oneShot a) then 0.1 else 0.2)%float
     | setLoop a mode repetitions =>
         oneShot a /\ mode = LoopOnce /\ repetitions = 1%float
     end.

(** A controller on which the effect for status [s], mapped to [n], has
    nothing left to do. *)
Definition settled (s : AnimationStatus) (n : string) (c : Controller) : Prop :=
  is_Some (actions c !! n)
  /\ (canPlayNext c = true -> n = prevActionNameRef c)
  /\ (canPlayNext c = false -> ~ interrupts (prevActionNameRef c) s)
  /\ (forall v, overrideOf s = Some v ->
                timeScale <$> actions c !! n = Some v).

End LobsterLog.

(* ===================================================================== *)
(** ** The status effect with the library call that can throw             *)
(* ===================================================================== *)

Module LobsterThrow.

Import Lobster.

(** The animation library's [crossFadeFrom] starts by calling [fadeOut]
    on the action it is given; given [undefined] it throws.  The other
    calls of the controller are made on the registered action
    [nextAction] and return. *)
Definition throws (c : MixerCall) : bool :=
  match c with
  | crossFadeFrom _ None _ => true
  | _ => false
  end.

(** Effect bodies that may throw: [None] is an exception leaving the
    body; what was written before it stays written. *)
Definition EffE (A : Type) : Type := Cells -> option A * Cells.

Definition retE {A} (x : A) : EffE A := fun w => (Some x, w).

Definition bindE {A B} (m : EffE A) (k : A -> EffE B) : EffE B :=
  fun w => match m w with
           | (Some x, w') => k x w'
           | (None, w') => (None, w')
           end.

Definition throw {A} : EffE A := fun w => (None, w).

Definition lift {A} (m : Eff A) : EffE A :=
  fun w => let '(x, w') := m w in (Some x, w').

Notation "'let!' x ':=' m 'in' k" := (bindE m (fun x => k))
  (at level 10, x name, m at level 100, k at level 200).
Notation "m ';;!' k" := (bindE m (fun _ => k))
  (at level 100, k at level 200, right associativity).

Definition whenE (b : bool) (m : EffE unit) : EffE unit :=
  if b then m else retE tt.

(** A library call: it is made, and then it returns or throws. *)
Definition callE (c : MixerCall) : EffE unit :=
  lift (call c) ;;! if throws c then throw else retE tt.

(** Lines 209-283 again, statement by statement as [statusEffectBody],
    with the library calls able to throw. *)
Definition statusEffectBodyE (ecctrlActionName : AnimationStatus)
    (canPlayNext : bool) : EffE unit :=
  match statusToActionMap !! statusKey ecctrlActionName with
  | None => retE tt
  | Some nextActionName =>
    let! nextAction := lift (lookupAction nextActionName) in
    match nextAction with
    | None => retE tt
    | Some nextAction =>
      let! prevActionName := lift readRef in
      whenE (bool_decide (nextActionName <> prevActionName) && canPlayNext) (
        (if bool_decide (Some nextActionName = statusToActionMap !! "JUMP_START")
            || bool_decide (Some nextActionName = statusToActionMap !! "JUMP_LAND")
         then
           lift (setCanPlayNext false) ;;!
           lift (setTimeScale nextAction 0.5) ;;!
           callE (reset nextAction) ;;!
           let! fadeOut := lift (lookupAction prevActionName) in
           callE (crossFadeFrom nextAction fadeOut 0.1) ;;!
           callE (setLoop nextAction LoopOnce 1) ;;!
           callE (play nextAction) ;;!
           lift (setClampWhenFinished nextAction true)
         else
           lift (setCanPlayNext true) ;;!
           lift (setTimeScale nextAction 1) ;;!
           callE (reset nextAction) ;;!
           let! fadeOut := lift (lookupAction prevActionName) in
           callE (crossFadeFrom nextAction fadeOut 0.2) ;;!
           callE (play nextAction)) ;;!
        lift (writeRef nextActionName)) ;;!
      whenE (negb canPlayNext
             && bool_decide (Some prevActionName = statusToActionMap !! "JUMP_START")
             && bool_decide (statusKey ecctrlActionName <> "JUMP_IDLE")
             && bool_decide (statusKey ecctrlActionName <> "JUMP_START"))
        (lift (setCanPlayNext true)) ;;!
      whenE (negb canPlayNext
             && bool_decide (Some prevActionName = statusToActionMap !! "JUMP_LAND")
             && bool_decide (statusKey ecctrlActionName <> "IDLE")
             && bool_decide (statusKey ecctrlActionName <> "JUMP_LAND"))
        (lift (setCanPlayNext true)) ;;!
      whenE (bool_decide (statusKey ecctrlActionName = "RUN"))
        (lift (setTimeScale nextAction 0.45)) ;;!
      whenE (bool_decide (statusKey ecctrlActionName = "WALK"))
        (lift (setTimeScale nextAction 0.45)) ;;!
      whenE (bool_decide (statusKey ecctrlActionName = "JUMP_START"))
        (lift (setTimeScale nextAction (0.5 * 2))) ;;!
      whenE (bool_decide (statusKey ecctrlActionName = "JUMP_LAND"))
        (lift (setTimeScale nextAction (0.44 * 2))) ;;!
      whenE (bool_decide (statusKey ecctrlActionName = "JUMP_IDLE"))
        (lift (setTimeScale nextAction 0)) ;;!
      whenE (bool_decide (statusKey ecctrlActionName = "JUMP_FALL"))
        (lift (setTimeScale nextAction 0))
    end
  end.

(** How an effect run ends.  [Returned c]: the body ran to its end and
    the queued state update is committed.  [Thrown c]: an exception left
    the body; [c] is what it leaves behind, with [canPlayNext] as it was
    rendered, since the component renders no more. *)
Inductive Outcome :=
| Returned (c : Controller)
| Thrown (c : Controller).

Definition runEffectE (c : Controller) (m : EffE unit) : Outcome :=
  match m (cellsOf c) with
  | (Some _, w) => Returned (commit c w)
  | (None, w) =>
      Thrown (mkController (canPlayNext c) (ref_current w) (table w) (log w))
  end.

Definition statusEffectE (ecctrlActionName : AnimationStatus) (c : Controller)
    : Outcome :=
  runEffectE c (statusEffectBodyE ecctrlActionName (canPlayNext c)).

End LobsterThrow.

(* ===================================================================== *)
(** ** Re-running the status effect                                       *)
(* ===================================================================== *)

Module LobsterRender.

Import Lobster LobsterThrow.

(** The dependency array of the status effect is
    [[ecctrlActionName, canPlayNext]] (line 283). *)

#[global] Instance AnimationStatus_eq_dec : EqDecision AnimationStatus.
Proof. solve_decision. Defined.

Definition statusDeps (ecctrlActionName : AnimationStatus) (c : Controller)
    : list (AnimationStatus + bool) :=
  [inl ecctrlActionName; inr (canPlayNext c)].

(** The renders that follow one another while the status stays
    [ecctrlActionName]: the effect runs when its dependencies differ from
    those of the render before ([prev]).  When the run throws, the
    component renders no more; when it has changed [canPlayNext] the
    component renders again; otherwise it rests.  [None] when [fuel]
    renders were not enough. *)
Fixpoint renderLoop (fuel : nat) (prev : option (list (AnimationStatus + bool)))
    (ecctrlActionName : AnimationStatus) (c : Controller) : option Outcome :=
  match fuel with
  | O => None
  | S fuel =>
    if React.effectRuns prev (statusDeps ecctrlActionName c)
    then
      match statusEffectE ecctrlActionName c with
      | Thrown c' => Some (Thrown c')
      | Returned c' =>
          if bool_decide (canPlayNext c' = canPlayNext c)
          then Some (Returned c')
          else renderLoop fuel (Some (statusDeps ecctrlActionName c))
                 ecctrlActionName c'
      end
    else Some (Returned c)
  end.

End LobsterRender.

(* ===================================================================== *)
(** ** Properties of the avatar animation controller                      *)
(* ===================================================================== *)

Module LobsterFacts.

Import Lobster LobsterThrow.

Local Open Scope list_scope.

(** Evaluate what is closed: lookups in the literal map and tests between
    literal strings. *)
Ltac eval_closed :=
  repeat match goal with
  | |- context [statusToActionMap !! ?k] =>
      let v := eval vm_compute in (statusToActionMap !! k) in
      change (statusToActionMap !! k) with v
  | |- context [bool_decide ?P] =>
      let v := eval vm_compute in (bool_decide P) in
      match v with
      | true => change (bool_decide P) with true
      | false => change (bool_decide P) with false
      end
  end.

(** Unfold the monad and the cells, leaving the table operations alone. *)
Ltac eff_unfold :=
  cbv beta iota zeta delta
    [statusEffectBody onFinishedBody idleEffectBody
     mbind mret Eff_bind Eff_ret bind ret when
     lookupAction readRef writeRef setCanPlayNext setTimeScale
     setClampWhenFinished call cellsOf snd fst
     table ref_current log queued
     statusKey canPlayNext prevActionNameRef actions calls
     andb orb negb].

(** Run an effect body symbolically, splitting on the tests that depend on
    the previous action name. *)
Ltac eff_run :=
  repeat first
    [ progress eff_unfold
    | progress eval_closed
    | match goal with
      | H : ?A !! ?k = _ |- context [?A !! ?k] =>
          rewrite H; cbn [fmap option_fmap option_map]
      end
    | case_bool_decide; simplify_eq ].

Ltac eff_commit :=
  cbv beta iota zeta delta
    [commit default queued ref_current table log id
     canPlayNext prevActionNameRef actions calls].

(** Start a proof about [statusEffect s c]: one goal per status and gate
    value, with the mapped name [n] known. *)
Ltac by_status s c Hn :=
  destruct c as [g p A l];
  unfold statusEffect, runEffect;
  cbn [canPlayNext prevActionNameRef actions calls] in *;
  destruct s, g; vm_compute in Hn; simplify_eq.

Lemma statusKey_inj s1 s2 : statusKey s1 = statusKey s2 -> s1 = s2.
Proof. destruct s1, s2; intros H; first [reflexivity | discriminate H]. Qed.

(** Writing a field of a registered action does not change which names
    are registered. *)
Lemma lookupAction_alter (f : AnimationAction -> AnimationAction)
    (A : gmap string AnimationAction) (n k : string) :
  (fun _ : AnimationAction => k) <$> alter f n A !! k
  = (fun _ : AnimationAction => k) <$> A !! k.
Proof.
  rewrite lookup_alter. case_decide; [subst|done].
  by destruct (A !! k).
Qed.

Lemma clamp_alter_timeScale (v : number) (A : gmap string AnimationAction)
    (n k : string) :
  clampWhenFinished <$>
    alter (fun x => mkAction v (clampWhenFinished x)) n A !! k
  = clampWhenFinished <$> A !! k.
Proof.
  rewrite lookup_alter. case_decide; [subst|done].
  by destruct (A !! k).
Qed.

(** The mapped name of each status. *)
Lemma mapped_name (s : AnimationStatus) :
  exists n, statusToActionMap !! statusKey s = Some n.
Proof. destruct s; eexists; vm_compute; reflexivity. Qed.

(** An effect run on a status whose clip is not registered changes
    nothing at all. *)
Lemma statusEffect_missing s c n :
  statusToActionMap !! statusKey s = Some n ->
  actions c !! n = None ->
  statusEffect s c = c.
Proof.
  intros Hn Hnone. destruct c as [g p A l].
  unfold statusEffect, runEffect, statusEffectBody.
  rewrite Hn. cbn [canPlayNext prevActionNameRef actions calls] in *.
  eff_unfold. rewrite Hnone. cbn [fmap option_fmap option_map].
  reflexivity.
Qed.

(** With the gate closed an effect run calls nothing and keeps the
    reference. *)
Lemma statusEffect_closed s c :
  canPlayNext c = false ->
  calls (statusEffect s c) = calls c
  /\ prevActionNameRef (statusEffect s c) = prevActionNameRef c
  /\ (forall k, clampWhenFinished <$> actions (statusEffect s c) !! k
                = clampWhenFinished <$> actions c !! k).
Proof.
  intros Hg. destruct (mapped_name s) as [n Hn].
  destruct (actions c !! n) as [a|] eqn:Ha;
    [|by rewrite (statusEffect_missing s c n Hn Ha)].
  by_status s c Hn; try discriminate Hg; eff_run; eff_commit;
    repeat split; try reflexivity; intros k;
    rewrite ?clamp_alter_timeScale; reflexivity.
Qed.


(** An effect run writes to no action but the mapped one. *)
Lemma statusEffect_others s c n k :
  statusToActionMap !! statusKey s = Some n ->
  k <> n ->
  actions (statusEffect s c) !! k = actions c !! k.
Proof.
  intros Hn Hk.
  destruct (actions c !! n) as [a|] eqn:Ha;
    [|by rewrite (statusEffect_missing s c n Hn Ha)].
  by_status s c Hn; eff_run; eff_commit;
    rewrite ?lookup_alter_ne by done; reflexivity.
Qed.

(** With the gate closed, an effect run reopens it only in the two cases
    the code names. *)
Lemma statusEffect_reopens s c :
  canPlayNext c = false ->
  canPlayNext (statusEffect s c) = true ->
  (prevActionNameRef c = "JUMP_START" /\ s <> JUMP_START /\ s <> JUMP_IDLE)
  \/ (prevActionNameRef c = "JUMP_LAND" /\ s <> IDLE /\ s <> JUMP_LAND).
Proof.
  intros Hg. destruct (mapped_name s) as [n Hn].
  destruct (actions c !! n) as [a|] eqn:Ha;
    [|rewrite (statusEffect_missing s c n Hn Ha); congruence].
  by_status s c Hn; try discriminate Hg; eff_run; eff_commit;
    intros Hopen; try discriminate Hopen;
    first [ left; repeat split; discriminate
          | right; repeat split; discriminate ].
Qed.

(** A transition with the gate open. *)
Lemma statusEffect_transition s c n a :
  canPlayNext c = true ->
  statusToActionMap !! statusKey s = Some n ->
  actions c !! n = Some a ->
  n <> prevActionNameRef c ->
  let fadeOut := (fun _ : AnimationAction => prevActionNameRef c)
                   <$> actions c !! prevActionNameRef c in
  prevActionNameRef (statusEffect s c) = n
  /\ (oneShot n ->
        canPlayNext (statusEffect s c) = false
        /\ calls (statusEffect s c)
           = calls c ++ [reset n; crossFadeFrom n fadeOut 0.1;
                         setLoop n LoopOnce 1; play n]
        /\ clampWhenFinished <$> actions (statusEffect s c) !! n = Some true)
  /\ (~ oneShot n ->
        canPlayNext (statusEffect s c) = true
        /\ calls (statusEffect s c)
           = calls c ++ [reset n; crossFadeFrom n fadeOut 0.2; play n]
        /\ clampWhenFinished <$> actions (statusEffect s c) !! n
           = Some (clampWhenFinished a)).
Proof.
  intros Hg Hn Ha Hne fadeOut. subst fadeOut. unfold oneShot.
  by_status s c Hn; try discriminate Hg; eff_run; eff_commit;
    try (exfalso; apply Hne; reflexivity);
    (split; [reflexivity|]); split; intros Hs;
    try (exfalso; destruct Hs; discriminate);
    try (exfalso; apply Hs; auto; fail);
    rewrite ?lookupAction_alter, <- ?app_assoc; cbn [app];
    (split; [reflexivity|]); (split; [reflexivity|]);
    rewrite ?lookup_alter_eq, ?Ha; cbn [fmap option_fmap option_map];
    rewrite ?lookup_alter_eq, ?Ha; cbn [fmap option_fmap option_map];
    rewrite ?lookup_alter_eq, ?Ha; cbn [fmap option_fmap option_map];
    reflexivity.
Qed.

(** With the gate open and the mapped name equal to the previous one,
    nothing is started. *)
Lemma statusEffect_same s c n :
  canPlayNext c = true ->
  statusToActionMap !! statusKey s = Some n ->
  n = prevActionNameRef c ->
  canPlayNext (statusEffect s c) = true
  /\ prevActionNameRef (statusEffect s c) = prevActionNameRef c
  /\ calls (statusEffect s c) = calls c.
Proof.
  intros Hg Hn Heq.
  destruct (actions c !! n) as [a|] eqn:Ha;
    [|by rewrite (statusEffect_missing s c n Hn Ha)].
  by_status s c Hn; try discriminate Hg; eff_run; eff_commit;
    first [ by repeat split | exfalso; congruence ].
Qed.

(** The finished listener only touches the gate. *)
Lemma onFinished_frame clip c :
  prevActionNameRef (onFinished clip c) = prevActionNameRef c
  /\ actions (onFinished clip c) = actions c
  /\ calls (onFinished clip c) = calls c
  /\ (canPlayNext (onFinished clip c) = true
      <-> canPlayNext c = true \/ oneShot clip).
Proof.
  destruct c as [g p A l]. unfold onFinished, runEffect, oneShot.
  cbn [canPlayNext prevActionNameRef actions calls].
  destruct g; eff_run; eff_commit; repeat split; auto;
    try (intros [?|[?|?]]; congruence); naive_solver.
Qed.


(** The IDLE effect plays the IDLE clip when it is registered and does
    nothing else. *)
Lemma idleEffect_spec c :
  idleEffect c
  = mkController (canPlayNext c) (prevActionNameRef c) (actions c)
      (calls c ++ match actions c !! "IDLE" with
                  | Some _ => [play "IDLE"]
                  | None => []
                  end).
Proof.
  destruct c as [g p A l]. unfold idleEffect, runEffect.
  cbn [canPlayNext prevActionNameRef actions calls].
  destruct (A !! "IDLE") as [a|] eqn:Ha; eff_unfold; rewrite Ha;
    cbn [fmap option_fmap option_map]; eff_commit;
    by rewrite ?app_nil_r.
Qed.

#[local] Instance oneShot_dec n : Decision (oneShot n).
Proof. unfold oneShot. apply _. Defined.

(** Every step only appends to the log of library calls. *)
Lemma step_calls_grow c e : exists more, calls (step c e) = calls c ++ more.
Proof.
  destruct e as [s|clip]; cbn [step].
  - destruct (mapped_name s) as [n Hn].
    destruct (actions c !! n) as [a|] eqn:Ha;
      [|exists []; by rewrite (statusEffect_missing s c n Hn Ha), app_nil_r].
    destruct (canPlayNext c) eqn:Hg.
    + destruct (decide (n = prevActionNameRef c)) as [Heq|Hne].
      * exists []. rewrite app_nil_r.
        by destruct (statusEffect_same s c n Hg Hn Heq) as (_ & _ & ->).
      * destruct (statusEffect_transition s c n a Hg Hn Ha Hne) as (_ & H1 & H2).
        destruct (decide (oneShot n)) as [Ho|Ho].
        -- destruct (H1 Ho) as (_ & -> & _). eauto.
        -- destruct (H2 Ho) as (_ & -> & _). eauto.
    + exists []. rewrite app_nil_r.
      by destruct (statusEffect_closed s c Hg) as (-> & _).
  - exists []. rewrite app_nil_r.
    by destruct (onFinished_frame clip c) as (_ & _ & -> & _).
Qed.

Lemma run_calls_grow es : forall c, exists more, calls (run c es) = calls c ++ more.
Proof.
  induction es as [|e es IH]; intros c; cbn [run foldl].
  - exists []. by rewrite app_nil_r.
  - destruct (IH (step c e)) as [m2 H2]. destruct (step_calls_grow c e) as [m1 H1].
    exists (m1 ++ m2). unfold run in H2. by rewrite H2, H1, app_assoc.
Qed.

(** The coupling between gate and reference is kept by every step. *)
Lemma coupling_step c e :
  (canPlayNext c = false -> oneShot (prevActionNameRef c)) ->
  canPlayNext (step c e) = false -> oneShot (prevActionNameRef (step c e)).
Proof.
  intros Hinv. destruct e as [s|clip]; cbn [step].
  - destruct (canPlayNext c) eqn:Hg.
    + destruct (mapped_name s) as [n Hn].
      destruct (actions c !! n) as [a|] eqn:Ha;
        [|rewrite (statusEffect_missing s c n Hn Ha); congruence].
      destruct (decide (n = prevActionNameRef c)) as [Heq|Hne].
      * destruct (statusEffect_same s c n Hg Hn Heq) as (-> & _). discriminate.
      * destruct (statusEffect_transition s c n a Hg Hn Ha Hne) as (-> & H1 & H2).
        destruct (decide (oneShot n)) as [Ho|Ho]; [done|].
        destruct (H2 Ho) as (-> & _). discriminate.
    + destruct (statusEffect_closed s c Hg) as (_ & -> & _). auto.
  - destruct (onFinished_frame clip c) as (-> & _ & _ & Hopen).
    intros Hclosed. apply Hinv.
    destruct (canPlayNext c); [|done].
    rewrite (proj2 Hopen) in Hclosed; [done|by left].
Qed.

Lemma coupling_reachable acts c :
  reachable acts c -> canPlayNext c = false -> oneShot (prevActionNameRef c).
Proof.
  induction 1 as [s|c e _ IH].
  - apply (coupling_step (idleEffect (initial acts)) (StatusUpdate s)).
    rewrite idleEffect_spec. discriminate.
  - by apply coupling_step.
Qed.

(** A step closes an open gate only by starting a one-shot clip. *)
Lemma closing_step c e :
  canPlayNext c = true -> canPlayNext (step c e) = false ->
  exists s n,
    e = StatusUpdate s
    /\ statusToActionMap !! statusKey s = Some n
    /\ oneShot n
    /\ n <> prevActionNameRef c
    /\ prevActionNameRef (step c e) = n
    /\ calls (step c e)
       = calls c ++ [reset n;
                     crossFadeFrom n ((fun _ : AnimationAction => prevActionNameRef c)
                                        <$> actions c !! prevActionNameRef c) 0.1;
                     setLoop n LoopOnce 1; play n].
Proof.
  intros Hg. destruct e as [s|clip]; cbn [step].
  - destruct (mapped_name s) as [n Hn].
    destruct (actions c !! n) as [a|] eqn:Ha;
      [|rewrite (statusEffect_missing s c n Hn Ha); congruence].
    destruct (decide (n = prevActionNameRef c)) as [Heq|Hne].
    + destruct (statusEffect_same s c n Hg Hn Heq) as (-> & _). discriminate.
    + destruct (statusEffect_transition s c n a Hg Hn Ha Hne) as (Hp & H1 & H2).
      destruct (decide (oneShot n)) as [Ho|Ho].
      * destruct (H1 Ho) as (_ & Hc & _). intros _. by exists s, n.
      * destruct (H2 Ho) as (-> & _). discriminate.
  - destruct (onFinished_frame clip c) as (_ & _ & _ & Hopen).
    rewrite (proj2 Hopen); [discriminate|by left].
Qed.

(** A transition to a clip that is not one-shot ends with the gate open. *)
Lemma looping_transition_open c s :
  prevActionNameRef (statusEffect s c) <> prevActionNameRef c ->
  ~ oneShot (prevActionNameRef (statusEffect s c)) ->
  canPlayNext (statusEffect s c) = true.
Proof.
  intros Hchg Hno.
  destruct (canPlayNext c) eqn:Hg.
  - destruct (mapped_name s) as [n Hn].
    destruct (actions c !! n) as [a|] eqn:Ha;
      [|rewrite (statusEffect_missing s c n Hn Ha) in Hchg; done].
    destruct (decide (n = prevActionNameRef c)) as [Heq|Hne].
    + by destruct (statusEffect_same s c n Hg Hn Heq) as (-> & _).
    + destruct (statusEffect_transition s c n a Hg Hn Ha Hne) as (Hp & _ & H2).
      rewrite Hp in Hno. by destruct (H2 Hno) as (-> & _).
  - by destruct (statusEffect_closed s c Hg) as (_ & Hp & _).
Qed.

(** While the status stays among those the one-shot clip waits for, the
    closed gate stays closed. *)
Lemma waiting_keeps_closed (p : string) (waits : AnimationStatus -> Prop) :
  (forall s c, canPlayNext c = false -> prevActionNameRef c = p -> waits s ->
               canPlayNext (statusEffect s c) = false) ->
  forall ss c,
    canPlayNext c = false -> prevActionNameRef c = p -> Forall waits ss ->
    canPlayNext (run c (StatusUpdate <$> ss)) = false
    /\ prevActionNameRef (run c (StatusUpdate <$> ss)) = p.
Proof.
  intros Hstep ss. induction ss as [|s ss IH]; intros c Hg Hp Hall.
  - done.
  - inversion Hall as [|? ? Hs Hss]; subst. cbn [fmap list_fmap run foldl step].
    apply IH; cbn [step]; [by apply Hstep| |done].
    by destruct (statusEffect_closed s c Hg) as (_ & -> & _).
Qed.


(** *** Runs that return and runs that throw *)

(** Unfold an effect body that may throw. *)
Ltac eff_unfoldE :=
  cbv beta iota zeta delta
    [statusEffectE runEffectE statusEffectBodyE
     bindE retE throw lift whenE callE throws
     statusEffectBody
     mbind mret Eff_bind Eff_ret bind ret when
     lookupAction readRef writeRef setCanPlayNext setTimeScale
     setClampWhenFinished call cellsOf snd fst
     table ref_current log queued
     statusKey canPlayNext prevActionNameRef actions calls
     andb orb negb].

Ltac eff_runE :=
  repeat first
    [ progress eff_unfoldE
    | progress eval_closed
    | progress (rewrite ?lookupAction_alter)
    | match goal with
      | H : ?A !! ?k = _ |- context [?A !! ?k] =>
          rewrite H; cbn [fmap option_fmap option_map]
      end
    | case_bool_decide; simplify_eq ].

(** A run on a missing mapped action returns at the guard. *)
Lemma statusEffectE_missing s c n :
  statusToActionMap !! statusKey s = Some n ->
  actions c !! n = None ->
  statusEffectE s c = Returned c.
Proof.
  intros Hn Hnone. destruct c as [g p A l].
  unfold statusEffectE, runEffectE, statusEffectBodyE.
  rewrite Hn. cbn [canPlayNext prevActionNameRef actions calls] in *.
  eff_unfoldE. rewrite Hnone. cbn [fmap option_fmap option_map].
  reflexivity.
Qed.

(** A run returns, with the controller [statusEffect] gives, unless it
    makes a transition from an action that is not registered. *)
Lemma statusEffectE_returns s c :
  (forall n, statusToActionMap !! statusKey s = Some n ->
             is_Some (actions c !! n) ->
             canPlayNext c = true ->
             n <> prevActionNameRef c ->
             is_Some (actions c !! prevActionNameRef c)) ->
  statusEffectE s c = Returned (statusEffect s c).
Proof.
  intros Hreg. destruct (mapped_name s) as [n Hn].
  destruct (actions c !! n) as [a|] eqn:Ha;
    [|by rewrite (statusEffectE_missing s c n Hn Ha),
                 (statusEffect_missing s c n Hn Ha)].
  specialize (Hreg n Hn (ltac:(by eexists))).
  destruct c as [g p A l].
  cbn [canPlayNext prevActionNameRef actions calls] in *.
  destruct (A !! p) as [x|] eqn:Hp.
  - clear Hreg. unfold statusEffect, runEffect.
    cbn [canPlayNext prevActionNameRef actions calls] in *.
    destruct s, g; vm_compute in Hn; simplify_eq;
      eff_runE; eff_commit; reflexivity.
  - unfold statusEffect, runEffect.
    cbn [canPlayNext prevActionNameRef actions calls] in *.
    destruct s, g; vm_compute in Hn; simplify_eq;
      eff_runE; eff_commit;
      first [ reflexivity
            | exfalso; destruct Hreg as [? ?]; [reflexivity | congruence | congruence] ].
Qed.

(** A transition from an action that is not registered throws in
    [crossFadeFrom]: after the first timeScale assignment and [reset],
    before everything else. *)
Lemma statusEffectE_throws s c n a :
  statusToActionMap !! statusKey s = Some n ->
  actions c !! n = Some a ->
  canPlayNext c = true ->
  n <> prevActionNameRef c ->
  actions c !! prevActionNameRef c = None ->
  statusEffectE s c
  = Thrown (mkController true (prevActionNameRef c)
              (alter (fun x => mkAction (if decide (oneShot n) then 0.5 else 1)
                                        (clampWhenFinished x)) n (actions c))
              (calls c ++ [reset n;
                           crossFadeFrom n None
                             (if decide (oneShot n) then 0.1 else 0.2)])).
Proof.
  intros Hn Ha Hg Hne Hp. destruct c as [g p A l].
  cbn [canPlayNext prevActionNameRef actions calls] in *. subst g.
  destruct s; vm_compute in Hn; simplify_eq;
    eff_runE; try congruence;
    rewrite <- ?app_assoc; cbn [app];
    match goal with
    | |- context [decide (oneShot ?k)] =>
        let v := eval vm_compute in (bool_decide (oneShot k)) in
        match v with
        | true => rewrite (decide_True (P := oneShot k)) by (vm_compute; tauto)
        | false => rewrite (decide_False (P := oneShot k))
                     by (intros [?|?]; discriminate)
        end
    end; reflexivity.
Qed.

(** *** The claims *)

(** C1.  [statusToActionMap] is defined on each of the seven statuses and
    on nothing else; it sends IDLE to IDLE, WALK to WALK, RUN to JOG,
    JUMP_START to JUMP_START, JUMP_IDLE and JUMP_FALL to JUMP_LOOP and
    JUMP_LAND to JUMP_LAND; so it is not injective. *)
Theorem statusToActionMap_total_not_injective :
  (forall s, is_Some (statusToActionMap !! statusKey s))
  /\ dom statusToActionMap = list_to_set (statusKey <$> allStatuses)
  /\ statusToActionMap !! statusKey IDLE = Some "IDLE"
  /\ statusToActionMap !! statusKey WALK = Some "WALK"
  /\ statusToActionMap !! statusKey RUN = Some "JOG"
  /\ statusToActionMap !! statusKey JUMP_START = Some "JUMP_START"
  /\ statusToActionMap !! statusKey JUMP_IDLE = Some "JUMP_LOOP"
  /\ statusToActionMap !! statusKey JUMP_FALL = Some "JUMP_LOOP"
  /\ statusToActionMap !! statusKey JUMP_LAND = Some "JUMP_LAND"
  /\ ~ (forall s1 s2,
          statusToActionMap !! statusKey s1 = statusToActionMap !! statusKey s2 ->
          s1 = s2).
Proof.
  split; [intros s; destruct (mapped_name s) as [n ->]; by eexists|].
  split; [by vm_compute|].
  repeat (split; [by vm_compute|]).
  intros Hinj. discriminate (Hinj JUMP_IDLE JUMP_FALL). by vm_compute.
Qed.

(** C2.  A status update processed while [canPlayNext] is false makes no
    library call (no reset, crossfade, setLoop or play) and leaves
    [prevActionNameRef.current] as it is; of the controller state
    ([prevActionNameRef.current] and [canPlayNext]) only the gate can
    change, and only to true.  The actions keep their
    [clampWhenFinished], and all but the mapped one are untouched (the
    timeScale of the mapped one is the subject of C8). *)
Theorem closed_gate_blocks_transition s c :
  canPlayNext c = false ->
  calls (statusEffect s c) = calls c
  /\ prevActionNameRef (statusEffect s c) = prevActionNameRef c
  /\ (canPlayNext (statusEffect s c) = canPlayNext c
      \/ canPlayNext (statusEffect s c) = true)
  /\ (forall k, clampWhenFinished <$> actions (statusEffect s c) !! k
                = clampWhenFinished <$> actions c !! k)
  /\ (forall n k, statusToActionMap !! statusKey s = Some n -> k <> n ->
                  actions (statusEffect s c) !! k = actions c !! k).
Proof.
  intros Hg. destruct (statusEffect_closed s c Hg) as (H1 & H2 & H3).
  repeat split; try done.
  - rewrite Hg. destruct (canPlayNext (statusEffect s c)); auto.
  - intros n k. apply statusEffect_others.
Qed.

Lemma closed_gate_blocks_transition_witness :
  let c := mkController false "JUMP_START" (actionsOf (mkAction 1 false))
             [play "IDLE"] in
  calls (statusEffect RUN c) = [play "IDLE"]
  /\ prevActionNameRef (statusEffect RUN c) = "JUMP_START".
Proof.
  intros c.
  destruct (closed_gate_blocks_transition RUN c eq_refl) as (H1 & H2 & _).
  split; [exact H1 | exact H2].
Defined.

(** C3.  With the gate open, the mapped action registered, its name
    different from the previous one and the previous action registered,
    the effect returns and: a JUMP_START or JUMP_LAND action closes the
    gate and is reset, crossfaded from the previous action over 0.1, set
    to LoopOnce with 1 repetition and played, with [clampWhenFinished]
    true; any other action leaves the gate open, gets no setLoop call,
    keeps its [clampWhenFinished] and is crossfaded from the previous
    action over 0.2; in both cases [prevActionNameRef.current] becomes the
    new name. *)
Theorem transition_one_shot_or_looping s c n a :
  canPlayNext c = true ->
  statusToActionMap !! statusKey s = Some n ->
  actions c !! n = Some a ->
  n <> prevActionNameRef c ->
  is_Some (actions c !! prevActionNameRef c) ->
  let fadeOut := Some (prevActionNameRef c) in
  statusEffectE s c = Returned (statusEffect s c)
  /\ prevActionNameRef (statusEffect s c) = n
  /\ (n = "JUMP_START" \/ n = "JUMP_LAND" ->
        canPlayNext (statusEffect s c) = false
        /\ calls (statusEffect s c)
           = calls c ++ [reset n; crossFadeFrom n fadeOut 0.1;
                         setLoop n LoopOnce 1; play n]
        /\ clampWhenFinished <$> actions (statusEffect s c) !! n = Some true)
  /\ (~ (n = "JUMP_START" \/ n = "JUMP_LAND") ->
        canPlayNext (statusEffect s c) = true
        /\ calls (statusEffect s c)
           = calls c ++ [reset n; crossFadeFrom n fadeOut 0.2; play n]
        /\ clampWhenFinished <$> actions (statusEffect s c) !! n
           = Some (clampWhenFinished a)).
Proof.
  intros Hg Hn Ha Hne Hprev fadeOut. split.
  - apply statusEffectE_returns. intros; exact Hprev.
  - pose proof (statusEffect_transition s c n a Hg Hn Ha Hne) as H.
    cbn zeta in H. destruct Hprev as [x Hx]. rewrite Hx in H. exact H.
Qed.

Lemma transition_one_shot_or_looping_witness :
  let c := mkController true "IDLE" (actionsOf (mkAction 1 false)) [] in
  (prevActionNameRef (statusEffect JUMP_START c) = "JUMP_START"
   /\ canPlayNext (statusEffect JUMP_START c) = false)
  /\ (prevActionNameRef (statusEffect RUN c) = "JOG"
      /\ canPlayNext (statusEffect RUN c) = true).
Proof.
  intros c. split.
  - destruct (transition_one_shot_or_looping JUMP_START c "JUMP_START"
                (mkAction 1 false) eq_refl eq_refl eq_refl)
      as (_ & Hp & Hone & _); [discriminate | by eexists |].
    split; [exact Hp|]. destruct Hone as (Hg & _); [by left | exact Hg].
  - destruct (transition_one_shot_or_looping RUN c "JOG"
                (mkAction 1 false) eq_refl eq_refl eq_refl)
      as (_ & Hp & _ & Hloop); [discriminate | by eexists |].
    split; [exact Hp|].
    destruct Hloop as (Hg & _); [intros [?|?]; discriminate | exact Hg].
Defined.

(** C4.  From a closed gate, a step reopens it only if it is a 'finished'
    event of the JUMP_START or JUMP_LAND clip (which always reopens it),
    or a status update with the previous action JUMP_START and a status
    other than JUMP_START and JUMP_IDLE, or a status update with the
    previous action JUMP_LAND and a status other than IDLE and JUMP_LAND.
    Status updates that stay in {JUMP_START, JUMP_IDLE} after JUMP_START,
    or in {IDLE, JUMP_LAND} after JUMP_LAND, never reopen it. *)
Theorem gate_reopening_conditions c :
  canPlayNext c = false ->
  (forall e, canPlayNext (step c e) = true ->
     (exists clip, e = Finished clip /\ oneShot clip)
     \/ (exists s, e = StatusUpdate s /\ prevActionNameRef c = "JUMP_START"
                   /\ s <> JUMP_START /\ s <> JUMP_IDLE)
     \/ (exists s, e = StatusUpdate s /\ prevActionNameRef c = "JUMP_LAND"
                   /\ s <> IDLE /\ s <> JUMP_LAND))
  /\ (forall clip, oneShot clip -> canPlayNext (step c (Finished clip)) = true)
  /\ (prevActionNameRef c = "JUMP_START" ->
      forall ss, Forall (fun s => s = JUMP_START \/ s = JUMP_IDLE) ss ->
                 canPlayNext (run c (StatusUpdate <$> ss)) = false)
  /\ (prevActionNameRef c = "JUMP_LAND" ->
      forall ss, Forall (fun s => s = IDLE \/ s = JUMP_LAND) ss ->
                 canPlayNext (run c (StatusUpdate <$> ss)) = false).
Proof.
  intros Hg. split; [|split; [|split]].
  - intros [s|clip] Hopen; cbn [step] in Hopen.
    + destruct (statusEffect_reopens s c Hg Hopen) as [H|H];
        [right; left | right; right]; by exists s.
    + left. exists clip. split; [done|].
      destruct (onFinished_frame clip c) as (_ & _ & _ & Hiff).
      destruct (proj1 Hiff Hopen) as [H|H]; [congruence | done].
  - intros clip Ho. cbn [step].
    destruct (onFinished_frame clip c) as (_ & _ & _ & Hiff).
    apply Hiff. by right.
  - intros Hp ss Hall.
    refine (proj1 (waiting_keeps_closed "JUMP_START" _ _ ss c Hg Hp Hall)).
    intros s c' Hg' Hp' Hs.
    destruct (canPlayNext (statusEffect s c')) eqn:Hopen; [|done].
    destruct (statusEffect_reopens s c' Hg' Hopen) as [(_ & H1 & H2)|(H1 & _)];
      [destruct Hs; congruence | rewrite Hp' in H1; discriminate].
  - intros Hp ss Hall.
    refine (proj1 (waiting_keeps_closed "JUMP_LAND" _ _ ss c Hg Hp Hall)).
    intros s c' Hg' Hp' Hs.
    destruct (canPlayNext (statusEffect s c')) eqn:Hopen; [|done].
    destruct (statusEffect_reopens s c' Hg' Hopen) as [(H1 & _)|(_ & H1 & H2)];
      [rewrite Hp' in H1; discriminate | destruct Hs; congruence].
Qed.

Lemma gate_reopening_conditions_witness :
  let acts := actionsOf (mkAction 1 false) in
  canPlayNext (run (mkController false "JUMP_START" acts [])
                   (StatusUpdate <$> [JUMP_START; JUMP_IDLE; JUMP_IDLE])) = false
  /\ canPlayNext (run (mkController false "JUMP_LAND" acts [])
                      (StatusUpdate <$> [JUMP_LAND; IDLE])) = false
  /\ canPlayNext (step (mkController false "JUMP_START" acts [])
                       (Finished "JUMP_START")) = true.
Proof.
  intros acts. split; [|split].
  - destruct (gate_reopening_conditions
                (mkController false "JUMP_START" acts []) eq_refl)
      as (_ & _ & H & _).
    apply (H eq_refl).
    repeat (apply List.Forall_cons; [auto|]). apply List.Forall_nil.
  - destruct (gate_reopening_conditions
                (mkController false "JUMP_LAND" acts []) eq_refl)
      as (_ & _ & _ & H).
    apply (H eq_refl).
    repeat (apply List.Forall_cons; [auto|]). apply List.Forall_nil.
  - destruct (gate_reopening_conditions
                (mkController false "JUMP_START" acts []) eq_refl)
      as (_ & H & _).
    apply H. by left.
Defined.

(** C5.  A status update whose mapped action name is not in the actions
    table returns the controller exactly as it was: same gate, same
    reference, same actions (no timeScale written), no library call.  The
    effect is a total function: nothing is raised. *)
Theorem missing_clip_is_noop s c n :
  statusToActionMap !! statusKey s = Some n ->
  actions c !! n = None ->
  statusEffect s c = c.
Proof. exact (statusEffect_missing s c n). Qed.

Lemma missing_clip_is_noop_witness :
  let c := mkController true "IDLE"
             (delete "JOG" (actionsOf (mkAction 1 false))) [play "IDLE"] in
  statusEffect RUN c = c.
Proof.
  intros c. apply (missing_clip_is_noop RUN c "JOG"); reflexivity.
Defined.

(** C6.  In every state reachable from mounting, the gate is closed only
    if [prevActionNameRef.current] is JUMP_START or JUMP_LAND; a step from
    such a state closes an open gate only by the transition that starts
    one of these two clips; and a transition to any other clip ends with
    the gate open. *)
Theorem gate_closed_implies_one_shot acts c :
  reachable acts c ->
  (canPlayNext c = false -> oneShot (prevActionNameRef c))
  /\ (forall e, canPlayNext c = true -> canPlayNext (step c e) = false ->
        exists s n,
          e = StatusUpdate s
          /\ statusToActionMap !! statusKey s = Some n
          /\ oneShot n
          /\ n <> prevActionNameRef c
          /\ prevActionNameRef (step c e) = n
          /\ calls (step c e)
             = calls c ++ [reset n;
                           crossFadeFrom n
                             ((fun _ : AnimationAction => prevActionNameRef c)
                                <$> actions c !! prevActionNameRef c) 0.1;
                           setLoop n LoopOnce 1; play n])
  /\ (forall s, prevActionNameRef (statusEffect s c) <> prevActionNameRef c ->
                ~ oneShot (prevActionNameRef (statusEffect s c)) ->
                canPlayNext (statusEffect s c) = true).
Proof.
  intros Hr. split; [|split].
  - by apply (coupling_reachable acts).
  - intros e. apply closing_step.
  - intros s. apply looping_transition_open.
Qed.

Lemma gate_closed_implies_one_shot_witness :
  let acts := actionsOf (mkAction 1 false) in
  let c := step (mount acts IDLE) (StatusUpdate JUMP_START) in
  canPlayNext c = false /\ oneShot (prevActionNameRef c).
Proof.
  intros acts c. split; [reflexivity|].
  apply (gate_closed_implies_one_shot acts c).
  - apply reachable_step, reachable_mount.
  - reflexivity.
Defined.

(** C7.  On mount the reference holds "IDLE", the gate is open and nothing
    has been called.  When the IDLE clip is registered, the IDLE effect
    makes exactly one call, [play] on IDLE, with no crossfade, and changes
    nothing else; this call stays the first of the log whatever happens
    afterwards, and a first render with status IDLE adds nothing to it. *)
Theorem initial_state_plays_idle acts :
  is_Some (acts !! "IDLE") ->
  prevActionNameRef (initial acts) = "IDLE"
  /\ canPlayNext (initial acts) = true
  /\ calls (initial acts) = []
  /\ idleEffect (initial acts) = mkController true "IDLE" acts [play "IDLE"]
  /\ calls (mount acts IDLE) = [play "IDLE"]
  /\ (forall s es, exists rest, calls (run (mount acts s) es) = play "IDLE" :: rest).
Proof.
  intros [a Ha].
  assert (Hidle : idleEffect (initial acts)
                  = mkController true "IDLE" acts [play "IDLE"]).
  { rewrite idleEffect_spec. cbn [initial canPlayNext prevActionNameRef actions calls].
    by rewrite Ha. }
  repeat (split; [done|]). split.
  - unfold mount. rewrite Hidle.
    by destruct (statusEffect_same IDLE
                   (mkController true "IDLE" acts [play "IDLE"]) "IDLE"
                   eq_refl eq_refl eq_refl) as (_ & _ & ->).
  - intros s es.
    destruct (run_calls_grow (StatusUpdate s :: es) (idleEffect (initial acts)))
      as [more Hmore].
    exists more. unfold mount.
    change (run (statusEffect s (idleEffect (initial acts))) es)
      with (run (idleEffect (initial acts)) (StatusUpdate s :: es)).
    by rewrite Hmore, Hidle.
Qed.

Lemma initial_state_plays_idle_witness :
  calls (mount (actionsOf (mkAction 1 false)) IDLE) = [play "IDLE"].
Proof.
  destruct (initial_state_plays_idle (actionsOf (mkAction 1 false)))
    as (_ & _ & _ & _ & H & _); [by eexists | exact H].
Defined.

(** C8, as stated, fails: mounted without an IDLE clip, the update for
    WALK has its mapped action registered, yet it throws in
    [crossFadeFrom] before the assignments of lines 265-282 and leaves the
    WALK action at the timeScale 1 of the transition, not at 0.45. *)
Lemma timeScale_overrides_counterexample :
  statusToActionMap !! statusKey WALK = Some "WALK"
  /\ actions (initial (delete "IDLE" (actionsOf (mkAction 1 false)))) !! "WALK"
     = Some (mkAction 1 false)
  /\ ~ (exists c',
          statusEffectE WALK (initial (delete "IDLE" (actionsOf (mkAction 1 false))))
          = Returned c'
          /\ timeScale <$> actions c' !! "WALK" = Some 0.45%float)
  /\ (exists c',
        statusEffectE WALK (initial (delete "IDLE" (actionsOf (mkAction 1 false))))
        = Thrown c'
        /\ timeScale <$> actions c' !! "WALK" = Some 1%float
        /\ timeScale <$> actions c' !! "WALK" <> Some 0.45%float).
Proof.
  split; [reflexivity|]. split; [reflexivity|].
  pose proof (statusEffectE_throws WALK
                (initial (delete "IDLE" (actionsOf (mkAction 1 false))))
                "WALK" (mkAction 1 false) eq_refl eq_refl eq_refl) as Hthrow.
  rewrite Hthrow; [|discriminate | reflexivity].
  split.
  - intros (c' & Hret & _). discriminate Hret.
  - eexists. split; [reflexivity|]. split; [reflexivity|].
    intros H. apply (f_equal (fun o => match o with
                                       | Some x => PrimFloat.eqb x 1
                                       | None => false
                                       end)) in H.
    vm_compute in H. discriminate H.
Qed.

(** C8, amended.  After a status update whose mapped action is
    registered and which does not make a transition from an unregistered
    action, the effect returns and the timeScale of the mapped action is
    0.45 for WALK and RUN, 1 (0.5 * 2) for JUMP_START, 0.88 (0.44 * 2) for
    JUMP_LAND and 0 for JUMP_IDLE and JUMP_FALL, whether or not a
    transition assigned 0.5 or 1 before; for IDLE it is the 1 assigned by
    the transition when one took place, and the old value otherwise. *)
Theorem timeScale_overrides s c n a :
  statusToActionMap !! statusKey s = Some n ->
  actions c !! n = Some a ->
  (canPlayNext c = true -> n <> prevActionNameRef c ->
   is_Some (actions c !! prevActionNameRef c)) ->
  statusEffectE s c = Returned (statusEffect s c)
  /\ (0.5 * 2 = 1)%float /\ (0.44 * 2 = 0.88)%float
  /\ timeScale <$> actions (statusEffect s c) !! n
     = Some (match s with
             | WALK | RUN => 0.45
             | JUMP_START => 1
             | JUMP_LAND => 0.88
             | JUMP_IDLE | JUMP_FALL => 0
             | IDLE => if canPlayNext c && bool_decide (n <> prevActionNameRef c)
                       then 1 else timeScale a
             end)%float.
Proof.
  intros Hn Ha Hprev. split.
  { apply statusEffectE_returns. intros n' Hn' _ Hg Hne.
    rewrite Hn in Hn'. injection Hn' as <-. by apply Hprev. }
  clear Hprev. split; [reflexivity|]. split; [reflexivity|].
  by_status s c Hn; eff_run; eff_commit;
    rewrite ?lookup_alter_eq, ?Ha; cbn [fmap option_fmap option_map];
    rewrite ?lookup_alter_eq, ?Ha; cbn [fmap option_fmap option_map];
    rewrite ?lookup_alter_eq, ?Ha; cbn [fmap option_fmap option_map];
    cbn [timeScale andb];
    eval_closed;
    try reflexivity;
    try (rewrite bool_decide_true by done; reflexivity);
    try (rewrite bool_decide_false by (intros ?; congruence); reflexivity).
Qed.

Lemma timeScale_overrides_witness :
  let c := mkController true "JUMP_LOOP" (actionsOf (mkAction 1 false)) [] in
  timeScale <$> actions (statusEffect JUMP_LAND c) !! "JUMP_LAND" = Some 0.88%float.
Proof.
  intros c.
  destruct (timeScale_overrides JUMP_LAND c "JUMP_LAND" (mkAction 1 false)
              eq_refl eq_refl) as (_ & _ & _ & H).
  - intros _ _. by eexists.
  - exact H.
Defined.

End LobsterFacts.

(* ===================================================================== *)
(** ** Properties of the water object                                     *)
(* ===================================================================== *)

Module WaterFacts.

Import Water.

Section Facts.

Variable side0 : Side.
Variable position0 rotation0 : Vector3.

Let water := buildWater side0 position0 rotation0.

(** After the first render the component is in a fixed state: later
    renders find the same empty dependency array and skip the effect. *)
Lemma renders_mounted n :
  renders side0 position0 rotation0 (S n)
  = mkComponent (Some water) [water] (Some []).
Proof.
  induction n as [|n IH].
  - reflexivity.
  - change (renders side0 position0 rotation0 (S (S n)))
      with (render side0 position0 rotation0
              (renders side0 position0 rotation0 (S n))).
    rewrite IH. reflexivity.
Qed.

(** C9.  Whatever the number of renders, the water mesh is constructed
    exactly once, by the effect of the first render.  Its geometry is a
    10000 by 10000 plane with one call, rotateX by Math.PI * -0.5 (the
    binary64 value of -pi/2); the constructor receives resolutionScale
    0.5, sun direction (0, 1, 0), sun color 0xffffff, water color #6fb8ac
    and distortion scale 5; then the material side is DoubleSide, the y
    position is -5 and the X rotation is Math.PI * 0 = 0, the other
    coordinates being those the constructor left. *)
Theorem water_mesh_built_once n :
  built (renders side0 position0 rotation0 0) = []
  /\ built (renders side0 position0 rotation0 (S n)) = [water]
  /\ api_display (renders side0 position0 rotation0 (S n)) = Some water
  /\ width (geometry water) = 10000%float
  /\ height (geometry water) = 10000%float
  /\ geometryCalls (geometry water) = [rotateX (Math_PI * -0.5)]
  /\ (Math_PI * -0.5 = - (Math_PI / 2))%float
  /\ (Math_PI * -0.5 = -1.5707963267948966)%float
  /\ resolutionScale (options water) = 0.5%float
  /\ sunDirection (options water) = mkVector3 0 1 0
  /\ sunColor (options water) = 16777215%float
  /\ waterColor (options water) = "#6fb8ac"
  /\ distortionScale (options water) = 5%float
  /\ material_side water = DoubleSide
  /\ position water = mkVector3 (x position0) (-5) (z position0)
  /\ rotation water = mkVector3 0 (y rotation0) (z rotation0).
Proof.
  rewrite renders_mounted. repeat split; reflexivity.
Qed.

End Facts.

End WaterFacts.

(* ===================================================================== *)
(** ** Properties of the camera rig and of the build configuration        *)
(* ===================================================================== *)

Module ConfigFacts.

Import Water Cam Vite.

(** C10.  The camera rig decomposes the one matrix [m4], given by sixteen
    literals, into the camera's position, quaternion and scale, sets fov
    to 50, far to 15000 and near to 5, and only then updates the
    projection matrix; without a camera it does nothing.  The build
    configuration is host "0.0.0.0", port 5173, the single allowed host
    [fronthost], and the plugin list react, tailwindcss. *)
Theorem camera_rig_and_config_fixed
    (P : Type) (decompose : list number -> Vector3 * Quaternion * Vector3)
    (updateProjectionMatrix : Camera P -> Camera P) (camera : Camera P)
    (fronthost : string) (Plugin : Type) (react tailwindcss : Plugin) :
  (exists configured,
      CamRig P decompose updateProjectionMatrix (Some camera)
      = Some (updateProjectionMatrix configured)
      /\ (cam_position configured, cam_quaternion configured, cam_scale configured)
         = decompose m4
      /\ fov configured = 50%float
      /\ far configured = 15000%float
      /\ near configured = 5%float
      /\ projection configured = projection camera)
  /\ CamRig P decompose updateProjectionMatrix None = None
  /\ length m4 = 16
  /\ m4 !! 12 = Some (-136.6004999600759)%float
  /\ m4 !! 13 = Some 272.606995275635%float
  /\ m4 !! 14 = Some 755.4517743435046%float
  /\ server (config fronthost Plugin react tailwindcss)
     = mkServerOptions "0.0.0.0" 5173 [fronthost]
  /\ plugins (config fronthost Plugin react tailwindcss) = [react; tailwindcss].
Proof.
  split.
  - unfold CamRig. destruct (decompose m4) as [[p q] s].
    eexists. split; [reflexivity|]. cbn. repeat split; reflexivity.
  - repeat split; reflexivity.
Qed.

End ConfigFacts.

(* ===================================================================== *)
(** ** Further properties of the avatar animation controller              *)
(* ===================================================================== *)

Module LobsterMore.

Import Lobster LobsterLog LobsterThrow LobsterRender LobsterFacts.

Local Open Scope list_scope.

(** An effect run keeps the set of registered names. *)
Lemma statusEffect_dom s c :
  dom (actions (statusEffect s c)) = dom (actions c).
Proof.
  destruct (mapped_name s) as [n Hn].
  destruct (actions c !! n) as [a|] eqn:Ha;
    [|by rewrite (statusEffect_missing s c n Hn Ha)].
  by_status s c Hn; eff_run; eff_commit; rewrite ?dom_alter_L; reflexivity.
Qed.

Lemma step_dom c e : dom (actions (step c e)) = dom (actions c).
Proof.
  destruct e as [s|clip]; cbn [step]; [apply statusEffect_dom|].
  by destruct (onFinished_frame clip c) as (_ & -> & _).
Qed.

Lemma registered_dom (A B : gmap string AnimationAction) k :
  dom A = dom B -> is_Some (A !! k) -> is_Some (B !! k).
Proof. intros Hd. rewrite <- !elem_of_dom. by rewrite Hd. Qed.

(** Only JUMP_START maps to the JUMP_START clip, only JUMP_LAND to the
    JUMP_LAND clip; no status that interrupts a one-shot clip maps to
    it. *)
Lemma interrupts_other_clip p s n :
  statusToActionMap !! statusKey s = Some n -> interrupts p s -> n <> p.
Proof.
  intros Hn [(-> & H1 & H2)|(-> & H1 & H2)];
    destruct s; vm_compute in Hn; simplify_eq; done.
Qed.

#[local] Instance interrupts_dec p s : Decision (interrupts p s).
Proof.
  unfold interrupts.
  assert (forall s1 s2 : AnimationStatus, Decision (s1 = s2))
    by (intros; unfold Decision; decide equality).
  apply _.
Defined.

(** With the gate closed and the mapped action registered, an
    interrupting status opens the gate. *)
Lemma statusEffect_interrupted s c n a :
  canPlayNext c = false ->
  statusToActionMap !! statusKey s = Some n ->
  actions c !! n = Some a ->
  interrupts (prevActionNameRef c) s ->
  canPlayNext (statusEffect s c) = true.
Proof.
  intros Hg Hn Ha Hi. unfold interrupts in Hi.
  by_status s c Hn; try discriminate Hg; eff_run; eff_commit;
    first [ reflexivity
          | exfalso; destruct Hi as [(? & ? & ?)|(? & ? & ?)]; congruence ].
Qed.

(** After an effect run on a registered action, the action has the
    timeScale of the status. *)
Lemma statusEffect_override s c n a v :
  statusToActionMap !! statusKey s = Some n ->
  actions c !! n = Some a ->
  overrideOf s = Some v ->
  timeScale <$> actions (statusEffect s c) !! n = Some v.
Proof.
  intros Hn Ha Hv.
  by_status s c Hn; vm_compute in Hv; simplify_eq; eff_run; eff_commit;
    rewrite ?lookup_alter_eq, ?Ha; cbn [fmap option_fmap option_map];
    rewrite ?lookup_alter_eq, ?Ha; cbn [fmap option_fmap option_map];
    rewrite ?lookup_alter_eq, ?Ha; cbn [fmap option_fmap option_map];
    reflexivity.
Qed.

(** On a settled controller the effect changes nothing. *)
Lemma settled_fixpoint s n c :
  statusToActionMap !! statusKey s = Some n ->
  settled s n c -> statusEffect s c = c.
Proof.
  intros Hn ([a Ha] & Hopen & Hclosed & Hts).
  unfold interrupts in Hclosed.
  by_status s c Hn;
    try (specialize (Hopen eq_refl)); try (specialize (Hclosed eq_refl));
    try (specialize (Hts _ eq_refl));
    cbn [canPlayNext prevActionNameRef actions calls] in *;
    simplify_eq; eff_run; eff_commit;
    try reflexivity;
    try (exfalso; apply Hclosed; first [ left; repeat split; discriminate
                                       | right; repeat split; discriminate ]).
  all: f_equal; apply alter_id; intros [ts cl] Hx;
    rewrite Hx in Hts; cbn in Hts; by simplify_eq.
Qed.


(** A transition, with its calls written as a start block. *)
Lemma statusEffect_starts s c n a :
  canPlayNext c = true ->
  statusToActionMap !! statusKey s = Some n ->
  actions c !! n = Some a ->
  n <> prevActionNameRef c ->
  prevActionNameRef (statusEffect s c) = n
  /\ calls (statusEffect s c)
     = calls c ++ startBlock (actions c) (prevActionNameRef c) n
  /\ canPlayNext (statusEffect s c) = bool_decide (~ oneShot n)
  /\ (oneShot n ->
      clampWhenFinished <$> actions (statusEffect s c) !! n = Some true).
Proof.
  intros Hg Hn Ha Hne.
  destruct (statusEffect_transition s c n a Hg Hn Ha Hne) as (Hp & H1 & H2).
  unfold startBlock. split; [done|].
  destruct (decide (oneShot n)) as [Ho|Ho].
  - destruct (H1 Ho) as (-> & -> & Hc).
    by rewrite bool_decide_false by (intros ?; done).
  - destruct (H2 Ho) as (-> & -> & Hc).
    by rewrite bool_decide_true by done.
Qed.

(** What a step does to the log and the reference: nothing, or one
    transition. *)
Lemma step_shape c e :
  (calls (step c e) = calls c
   /\ prevActionNameRef (step c e) = prevActionNameRef c
   /\ (canPlayNext (step c e) = false -> canPlayNext c = false))
  \/ (exists s n a,
        e = StatusUpdate s
        /\ statusToActionMap !! statusKey s = Some n
        /\ actions c !! n = Some a
        /\ canPlayNext c = true
        /\ n <> prevActionNameRef c
        /\ prevActionNameRef (step c e) = n
        /\ calls (step c e)
           = calls c ++ startBlock (actions c) (prevActionNameRef c) n
        /\ canPlayNext (step c e) = bool_decide (~ oneShot n)
        /\ (oneShot n ->
            clampWhenFinished <$> actions (step c e) !! n = Some true)).
Proof.
  destruct e as [s|clip]; cbn [step].
  - destruct (mapped_name s) as [n Hn].
    destruct (actions c !! n) as [a|] eqn:Ha;
      [|left; by rewrite (statusEffect_missing s c n Hn Ha)].
    destruct (canPlayNext c) eqn:Hg.
    + destruct (decide (n = prevActionNameRef c)) as [Heq|Hne].
      * left. destruct (statusEffect_same s c n Hg Hn Heq) as (-> & -> & ->).
        repeat split; done.
      * right. exists s, n, a.
        destruct (statusEffect_starts s c n a Hg Hn Ha Hne) as (? & ? & ? & ?).
        repeat split; done.
    + left. destruct (statusEffect_closed s c Hg) as (-> & -> & _).
      repeat split; done.
  - left. destruct (onFinished_frame clip c) as (-> & _ & -> & Hiff).
    repeat split; try done.
    intros Hc. destruct (canPlayNext c); [|done].
    rewrite (proj2 Hiff) in Hc; [done | by left].
Qed.

(** After a run with the gate open the controller is settled. *)
Lemma open_run_settled s c n a :
  canPlayNext c = true ->
  statusToActionMap !! statusKey s = Some n ->
  actions c !! n = Some a ->
  settled s n (statusEffect s c).
Proof.
  intros Hg Hn Ha. split; [|split; [|split]].
  - apply (registered_dom (actions c)); [by rewrite statusEffect_dom | by eexists].
  - destruct (decide (n = prevActionNameRef c)) as [Heq|Hne].
    + by destruct (statusEffect_same s c n Hg Hn Heq) as (_ & -> & _).
    + by destruct (statusEffect_starts s c n a Hg Hn Ha Hne) as (-> & _).
  - destruct (decide (n = prevActionNameRef c)) as [Heq|Hne].
    + destruct (statusEffect_same s c n Hg Hn Heq) as (-> & _). discriminate.
    + destruct (statusEffect_starts s c n a Hg Hn Ha Hne) as (-> & _).
      intros _ Hi. by apply (interrupts_other_clip n s n).
  - intros v Hv. by apply (statusEffect_override s c n a).
Qed.

(** After a run with the gate closed the controller is settled, unless
    the run has opened the gate. *)
Lemma closed_run_settled s c n a :
  canPlayNext c = false ->
  statusToActionMap !! statusKey s = Some n ->
  actions c !! n = Some a ->
  (interrupts (prevActionNameRef c) s /\ canPlayNext (statusEffect s c) = true)
  \/ (~ interrupts (prevActionNameRef c) s /\ settled s n (statusEffect s c)).
Proof.
  intros Hg Hn Ha.
  destruct (decide (interrupts (prevActionNameRef c) s)) as [Hi|Hi].
  - left. split; [done|]. by apply (statusEffect_interrupted s c n a).
  - right. split; [done|].
    destruct (statusEffect_closed s c Hg) as (_ & Hp & _).
    assert (Hg' : canPlayNext (statusEffect s c) = false).
    { destruct (canPlayNext (statusEffect s c)) eqn:Hopen; [|done].
      destruct Hi. by apply statusEffect_reopens. }
    split; [|split; [|split]].
    + apply (registered_dom (actions c)); [by rewrite statusEffect_dom | by eexists].
    + rewrite Hg'. discriminate.
    + by rewrite Hp.
    + intros v Hv. by apply (statusEffect_override s c n a).
Qed.


Lemma registered_after s c n :
  is_Some (actions c !! n) -> is_Some (actions (statusEffect s c) !! n).
Proof.
  apply (registered_dom (actions c)). by rewrite statusEffect_dom.
Qed.

Lemma run_dom es : forall c, dom (actions (run c es)) = dom (actions c).
Proof.
  induction es as [|e es IH]; intros c; [done|].
  cbn [run foldl]. unfold run in IH. by rewrite IH, step_dom.
Qed.

Lemma reachable_dom acts c : reachable acts c -> dom (actions c) = dom acts.
Proof.
  induction 1 as [s|c e _ IH].
  - unfold mount. by rewrite statusEffect_dom, idleEffect_spec.
  - by rewrite step_dom.
Qed.

(** Three runs with the same status give what two give. *)
Lemma runs_settle s c :
  statusEffect s (statusEffect s (statusEffect s c))
  = statusEffect s (statusEffect s c)
  /\ (canPlayNext c = true \/ ~ interrupts (prevActionNameRef c) s ->
      statusEffect s (statusEffect s c) = statusEffect s c).
Proof.
  destruct (mapped_name s) as [n Hn].
  destruct (actions c !! n) as [a|] eqn:Ha;
    [|by rewrite !(statusEffect_missing s c n Hn Ha)].
  assert (Hopen : forall c0 a0, canPlayNext c0 = true -> actions c0 !! n = Some a0 ->
            statusEffect s (statusEffect s c0) = statusEffect s c0).
  { intros c0 a0 Hg0 Ha0. apply (settled_fixpoint s n); [done|].
    by apply (open_run_settled s c0 n a0). }
  destruct (canPlayNext c) eqn:Hg.
  - split; [|intros _]; by rewrite !(Hopen c a).
  - destruct (closed_run_settled s c n a Hg Hn Ha) as [(Hi & Hg1)|(Hi & Hs)].
    + split.
      * destruct (registered_after s c n) as [a1 Ha1]; [by eexists|].
        by apply (Hopen _ a1).
      * intros [?|?]; done.
    + assert (Hfix := settled_fixpoint s n _ Hn Hs).
      split; [|intros _]; by rewrite !Hfix.
Qed.

(** A run that leaves the gate as it was has reached the fixed point. *)
Lemma same_gate_settled s c :
  canPlayNext (statusEffect s c) = canPlayNext c ->
  statusEffect s (statusEffect s c) = statusEffect s c.
Proof.
  intros Hsame. destruct (mapped_name s) as [n Hn].
  destruct (actions c !! n) as [a|] eqn:Ha;
    [|by rewrite !(statusEffect_missing s c n Hn Ha)].
  apply (proj2 (runs_settle s c)).
  destruct (canPlayNext c) eqn:Hg; [by left | right].
  intros Hi.
  rewrite (statusEffect_interrupted s c n a Hg Hn Ha Hi) in Hsame. discriminate.
Qed.

(** The reference stays on a registered action. *)
Lemma registered_prev_after s c :
  is_Some (actions c !! prevActionNameRef c) ->
  is_Some (actions (statusEffect s c) !! prevActionNameRef (statusEffect s c)).
Proof.
  intros Hp.
  destruct (step_shape c (StatusUpdate s))
    as [(_ & Heq & _)|(s' & n & a & _ & _ & Ha & _ & _ & Heq & _)];
    cbn [step] in Heq; rewrite Heq.
  - by apply registered_after.
  - apply registered_after. by eexists.
Qed.

(** A run from a registered previous action returns. *)
Lemma registered_prev_returns s c :
  is_Some (actions c !! prevActionNameRef c) ->
  statusEffectE s c = Returned (statusEffect s c).
Proof. intros Hp. apply statusEffectE_returns. intros; exact Hp. Qed.

(** A run returns what [statusEffect] gives, or throws. *)
Lemma statusEffectE_cases s c :
  exists c', statusEffectE s c = Returned (statusEffect s c)
             \/ statusEffectE s c = Thrown c'.
Proof.
  destruct (mapped_name s) as [n Hn].
  destruct (actions c !! prevActionNameRef c) as [x|] eqn:Hp;
    [exists c; left; apply registered_prev_returns; by rewrite Hp|].
  destruct (actions c !! n) as [a|] eqn:Ha.
  - destruct (canPlayNext c) eqn:Hg.
    + destruct (decide (n = prevActionNameRef c)) as [Heq|Hne].
      * exists c. left. apply statusEffectE_returns. intros n' Hn' _ _ Hne'.
        rewrite Hn in Hn'. by simplify_eq.
      * eexists. right. by apply (statusEffectE_throws s c n a).
    + exists c. left. apply statusEffectE_returns. intros; congruence.
  - exists c. left. apply statusEffectE_returns. intros n' Hn' [y Hy] _ _.
    rewrite Hn in Hn'. simplify_eq.
Qed.

(** With the IDLE clip registered the reference names a registered
    action in every reachable state. *)
Lemma reachable_prev_registered acts c :
  reachable acts c ->
  is_Some (acts !! "IDLE") ->
  is_Some (actions c !! prevActionNameRef c).
Proof.
  intros Hr Hidle. induction Hr as [s|c e _ IH].
  - unfold mount. apply registered_prev_after. by rewrite idleEffect_spec.
  - destruct e as [s|clip]; cbn [step]; [by apply registered_prev_after|].
    by destruct (onFinished_frame clip c) as (-> & -> & _).
Qed.

(** *** Properties beyond the claims *)

(** X1.  Re-running the status effect with the same status reaches a
    fixed point after at most two runs.  From a controller whose
    reference names a registered action, none of the runs throws, and the
    third run returns the controller of the second, with no further call
    and no further write.  When the gate is open, or closed without the
    status interrupting the one-shot clip, the second run already returns
    the controller of the first. *)
Theorem status_settles_within_two_runs s c :
  is_Some (actions c !! prevActionNameRef c) ->
  let c1 := statusEffect s c in
  let c2 := statusEffect s c1 in
  statusEffectE s c = Returned c1
  /\ statusEffectE s c1 = Returned c2
  /\ statusEffectE s c2 = Returned c2
  /\ (canPlayNext c = true \/ ~ interrupts (prevActionNameRef c) s ->
      statusEffectE s c1 = Returned c1).
Proof.
  intros Hp c1 c2. subst c1 c2.
  pose proof (registered_prev_after s c Hp) as Hp1.
  pose proof (registered_prev_after s _ Hp1) as Hp2.
  destruct (runs_settle s c) as [H3 H2].
  split; [by apply registered_prev_returns|].
  split; [by apply registered_prev_returns|].
  split.
  - rewrite (registered_prev_returns s _ Hp2). by rewrite H3.
  - intros Hok. rewrite (registered_prev_returns s _ Hp1). by rewrite (H2 Hok).
Qed.

Lemma status_settles_within_two_runs_witness :
  let c := mkController true "IDLE" (actionsOf (mkAction 1 false)) [play "IDLE"] in
  statusEffectE JUMP_START (statusEffect JUMP_START c)
  = Returned (statusEffect JUMP_START c).
Proof.
  intros c.
  destruct (status_settles_within_two_runs JUMP_START c) as (_ & _ & _ & H).
  - by eexists.
  - apply H. left. reflexivity.
Defined.

(** X2.  Interrupting a one-shot clip takes two runs.  With the gate
    closed, a registered mapped action and a status that interrupts the
    previous one-shot clip, the first run only opens the gate (no call,
    same reference); the second run makes the transition: the reference
    becomes the mapped name and the log grows by the start block of that
    clip, faded from the interrupted clip. *)
Theorem interrupted_one_shot_takes_two_runs s c n a :
  canPlayNext c = false ->
  statusToActionMap !! statusKey s = Some n ->
  actions c !! n = Some a ->
  interrupts (prevActionNameRef c) s ->
  let c1 := statusEffect s c in
  let c2 := statusEffect s c1 in
  canPlayNext c1 = true
  /\ prevActionNameRef c1 = prevActionNameRef c
  /\ calls c1 = calls c
  /\ prevActionNameRef c2 = n
  /\ calls c2 = calls c ++ startBlock (actions c) (prevActionNameRef c) n
  /\ canPlayNext c2 = bool_decide (~ oneShot n).
Proof.
  intros Hg Hn Ha Hi c1 c2. subst c1 c2.
  pose proof (statusEffect_interrupted s c n a Hg Hn Ha Hi) as Hg1.
  destruct (statusEffect_closed s c Hg) as (Hc & Hp & _).
  pose proof (interrupts_other_clip _ s n Hn Hi) as Hne.
  destruct (registered_after s c n) as [a1 Ha1]; [by eexists|].
  destruct (statusEffect_starts s (statusEffect s c) n a1 Hg1 Hn Ha1)
    as (Hp2 & Hc2 & Hg2 & _); [by rewrite Hp|].
  repeat split; try done.
  rewrite Hc2, Hc, Hp. unfold startBlock.
  by rewrite (statusEffect_others s c n (prevActionNameRef c) Hn).
Qed.

Lemma interrupted_one_shot_takes_two_runs_witness :
  let c := mkController false "JUMP_START" (actionsOf (mkAction 1 false))
             [play "JUMP_START"] in
  calls (statusEffect RUN c) = [play "JUMP_START"]
  /\ prevActionNameRef (statusEffect RUN (statusEffect RUN c)) = "JOG".
Proof.
  intros c.
  destruct (interrupted_one_shot_takes_two_runs RUN c "JOG" (mkAction 1 false)
              eq_refl eq_refl eq_refl) as (_ & _ & H1 & H2 & _).
  - left. repeat split; discriminate.
  - split; [exact H1 | exact H2].
Defined.

(** X3.  The ordinary end of a one-shot clip.  With the gate closed, a
    'finished' event of a one-shot clip followed by a status update whose
    registered action differs from the previous one makes the transition
    at once; without the event, and with a status that does not
    interrupt, the same update makes no call. *)
Theorem finished_then_status_transitions s c n a clip :
  canPlayNext c = false ->
  oneShot clip ->
  statusToActionMap !! statusKey s = Some n ->
  actions c !! n = Some a ->
  n <> prevActionNameRef c ->
  let c' := statusEffect s (onFinished clip c) in
  prevActionNameRef c' = n
  /\ calls c' = calls c ++ startBlock (actions c) (prevActionNameRef c) n
  /\ canPlayNext c' = bool_decide (~ oneShot n)
  /\ (~ interrupts (prevActionNameRef c) s ->
      calls (statusEffect s c) = calls c
      /\ prevActionNameRef (statusEffect s c) = prevActionNameRef c
      /\ canPlayNext (statusEffect s c) = false).
Proof.
  intros Hg Ho Hn Ha Hne c'. subst c'.
  destruct (onFinished_frame clip c) as (Hp & HA & Hc & Hiff).
  assert (Hg1 : canPlayNext (onFinished clip c) = true) by (apply Hiff; by right).
  destruct (statusEffect_starts s (onFinished clip c) n a Hg1 Hn)
    as (Hp2 & Hc2 & Hg2 & _); [by rewrite HA | by rewrite Hp |].
  rewrite Hp, HA, Hc in *.
  split; [done|]. split; [done|]. split; [done|].
  intros Hni. destruct (statusEffect_closed s c Hg) as (Hc1 & Hp1 & _).
  split; [done|]. split; [done|].
  destruct (canPlayNext (statusEffect s c)) eqn:Hopen; [|done].
  destruct Hni. by apply statusEffect_reopens.
Qed.

Lemma finished_then_status_transitions_witness :
  let c := mkController false "JUMP_START" (actionsOf (mkAction 1 false)) [] in
  prevActionNameRef (statusEffect JUMP_IDLE (onFinished "JUMP_START" c))
  = "JUMP_LOOP".
Proof.
  intros c.
  destruct (finished_then_status_transitions JUMP_IDLE c "JUMP_LOOP"
              (mkAction 1 false) "JUMP_START" eq_refl) as (H & _).
  - by left.
  - reflexivity.
  - reflexivity.
  - discriminate.
  - exact H.
Defined.

Lemma startBlock_ends (A : gmap string AnimationAction) p n :
  exists before, startBlock A p n = before ++ [play n].
Proof.
  unfold startBlock. destruct (decide (oneShot n)).
  - by eexists [_; _; _].
  - by eexists [_; _].
Qed.

(** X4.  When the IDLE clip is registered, the last library call is
    always [play] on the clip that [prevActionNameRef.current] names: the
    reference tracks the clip played last. *)
Theorem reference_names_last_played acts c :
  reachable acts c ->
  is_Some (acts !! "IDLE") ->
  exists earlier, calls c = earlier ++ [play (prevActionNameRef c)].
Proof.
  intros Hr [a Ha].
  assert (Hstep : forall c0 e,
            (exists l0, calls c0 = l0 ++ [play (prevActionNameRef c0)]) ->
            exists l0, calls (step c0 e) = l0 ++ [play (prevActionNameRef (step c0 e))]).
  { intros c0 e [l0 Hl0].
    destruct (step_shape c0 e)
      as [(-> & -> & _)|(s & n & a0 & _ & _ & _ & _ & _ & -> & -> & _)].
    - by exists l0.
    - destruct (startBlock_ends (actions c0) (prevActionNameRef c0) n) as [b ->].
      exists (calls c0 ++ b). by rewrite app_assoc. }
  induction Hr as [s|c e _ IH].
  - apply (Hstep (idleEffect (initial acts)) (StatusUpdate s)).
    exists []. rewrite idleEffect_spec.
    cbn [initial canPlayNext prevActionNameRef actions calls]. by rewrite Ha.
  - by apply Hstep.
Qed.

Lemma reference_names_last_played_witness :
  let acts := actionsOf (mkAction 1 false) in
  exists earlier,
    calls (step (mount acts IDLE) (StatusUpdate RUN))
    = earlier ++ [play (prevActionNameRef (step (mount acts IDLE) (StatusUpdate RUN)))].
Proof.
  intros acts.
  apply (reference_names_last_played acts).
  - apply reachable_step, reachable_mount.
  - by eexists.
Defined.

(** X5.  When the IDLE clip is registered, every call the controller has
    made is well formed: it is on a registered action, setLoop included;
    a crossfade comes from another registered action, never from
    [undefined] and never from the action itself, over 0.1 into JUMP_START
    or JUMP_LAND and over 0.2 into any other clip; setLoop is only called
    with LoopOnce and 1, on JUMP_START or JUMP_LAND.  The reference always
    names a registered action, and so no status update throws. *)
Theorem calls_are_well_formed acts c :
  reachable acts c ->
  is_Some (acts !! "IDLE") ->
  Forall (wellFormedCall acts) (calls c)
  /\ is_Some (acts !! prevActionNameRef c)
  /\ (forall s, statusEffectE s c = Returned (statusEffect s c)).
Proof.
  intros Hr Hidle.
  assert (Hstep : forall c0 e,
            dom (actions c0) = dom acts ->
            Forall (wellFormedCall acts) (calls c0)
            /\ is_Some (acts !! prevActionNameRef c0) ->
            Forall (wellFormedCall acts) (calls (step c0 e))
            /\ is_Some (acts !! prevActionNameRef (step c0 e))).
  { intros c0 e Hdom [Hwf Hp].
    destruct (step_shape c0 e)
      as [(-> & -> & _)|(s & n & a0 & _ & Hn & Ha0 & _ & Hne & -> & -> & _)];
      [done|].
    assert (Hreg : is_Some (acts !! n))
      by (apply (registered_dom (actions c0)); [done | by eexists]).
    split; [|done].
    apply Forall_app. split; [done|].
    assert (Hfo : (fun _ : AnimationAction => prevActionNameRef c0)
                    <$> actions c0 !! prevActionNameRef c0
                  = Some (prevActionNameRef c0)).
    { destruct (registered_dom acts (actions c0) (prevActionNameRef c0)) as [x ->];
        done. }
    unfold startBlock. rewrite Hfo.
    destruct (decide (oneShot n)) as [Ho|Ho];
      repeat (apply List.Forall_cons); try apply List.Forall_nil;
      unfold wellFormedCall; cbn [target]; (split; [exact Hreg|]); try done.
    - split; [by exists (prevActionNameRef c0)|].
      destruct (decide (oneShot n)); done.
    - split; [by exists (prevActionNameRef c0)|].
      destruct (decide (oneShot n)); done. }
  assert (Hinv : Forall (wellFormedCall acts) (calls c)
                 /\ is_Some (acts !! prevActionNameRef c)).
  { induction Hr as [s|c e Hr IH].
    - apply (Hstep (idleEffect (initial acts)) (StatusUpdate s)).
      + by rewrite idleEffect_spec.
      + rewrite idleEffect_spec.
        cbn [initial canPlayNext prevActionNameRef actions calls].
        destruct Hidle as [a Ha]. rewrite Ha. split; [|by eexists].
        apply List.Forall_cons; [|apply List.Forall_nil].
        split; [by eexists | done].
    - apply Hstep; [by apply reachable_dom | done]. }
  destruct Hinv as [Hwf Hp]. split; [done|]. split; [done|].
  intros s. apply registered_prev_returns.
  by apply (reachable_prev_registered acts).
Qed.

Lemma calls_are_well_formed_witness :
  let acts := actionsOf (mkAction 1 false) in
  is_Some (acts !! prevActionNameRef (step (mount acts IDLE) (StatusUpdate JUMP_START))).
Proof.
  intros acts.
  apply (calls_are_well_formed acts).
  - apply reachable_step, reachable_mount.
  - by eexists.
Defined.

(** X6.  When the IDLE clip is missing while the mapped clip of the first
    status is registered, the first status effect throws: it assigns the
    first timeScale (0.5 for a one-shot clip, 1 otherwise), calls [reset],
    then calls [crossFadeFrom] with [undefined], because the reference
    still says "IDLE".  Nothing else happens: no setLoop, no play, no
    [clampWhenFinished], the reference stays "IDLE", and the timeScale of
    lines 265-282 is not assigned. *)
Theorem missing_idle_crossfades_from_undefined acts s n a :
  acts !! "IDLE" = None ->
  statusToActionMap !! statusKey s = Some n ->
  acts !! n = Some a ->
  idleEffect (initial acts) = initial acts
  /\ statusEffectE s (idleEffect (initial acts))
     = Thrown (mkController true "IDLE"
                 (alter (fun x => mkAction (if decide (oneShot n) then 0.5 else 1)
                                           (clampWhenFinished x)) n acts)
                 [reset n;
                  crossFadeFrom n None (if decide (oneShot n) then 0.1 else 0.2)]).
Proof.
  intros Hidle Hn Ha.
  assert (Hc0 : idleEffect (initial acts) = initial acts).
  { rewrite idleEffect_spec. unfold initial.
    cbn [canPlayNext prevActionNameRef actions calls]. by rewrite Hidle. }
  split; [done|]. rewrite Hc0.
  rewrite (statusEffectE_throws s (initial acts) n a Hn Ha eq_refl); [done| |done].
  cbn [initial prevActionNameRef]. intros ->. congruence.
Qed.

Lemma missing_idle_crossfades_from_undefined_witness :
  statusEffectE WALK (idleEffect (initial (delete "IDLE" (actionsOf (mkAction 1 false)))))
  = Thrown (mkController true "IDLE"
              (alter (fun x => mkAction 1 (clampWhenFinished x)) "WALK"
                     (delete "IDLE" (actionsOf (mkAction 1 false))))
              [reset "WALK"; crossFadeFrom "WALK" None 0.2]).
Proof.
  destruct (missing_idle_crossfades_from_undefined
              (delete "IDLE" (actionsOf (mkAction 1 false))) WALK "WALK"
              (mkAction 1 false)) as [_ H]; [reflexivity..|].
  exact H.
Defined.

Lemma step_clamp_closed c e k :
  canPlayNext c = false ->
  clampWhenFinished <$> actions (step c e) !! k
  = clampWhenFinished <$> actions c !! k.
Proof.
  intros Hg. destruct e as [s|clip]; cbn [step].
  - by destruct (statusEffect_closed s c Hg) as (_ & _ & ->).
  - by destruct (onFinished_frame clip c) as (_ & -> & _).
Qed.

(** X7.  Whenever the gate is closed, the log ends with the start of the
    one-shot clip the reference names (reset, crossfade over 0.1, setLoop
    LoopOnce 1, play), and that action has [clampWhenFinished] true:
    nothing has been called since the one-shot clip began. *)
Theorem closed_gate_follows_one_shot_start acts c :
  reachable acts c ->
  canPlayNext c = false ->
  let p := prevActionNameRef c in
  (exists earlier fadeOut,
      calls c = earlier ++ [reset p; crossFadeFrom p fadeOut 0.1;
                            setLoop p LoopOnce 1; play p])
  /\ clampWhenFinished <$> actions c !! p = Some true.
Proof.
  intros Hr.
  assert (Hstep : forall c0 e,
    (canPlayNext c0 = false ->
     (exists earlier fadeOut,
        calls c0 = earlier ++ [reset (prevActionNameRef c0);
                               crossFadeFrom (prevActionNameRef c0) fadeOut 0.1;
                               setLoop (prevActionNameRef c0) LoopOnce 1;
                               play (prevActionNameRef c0)])
     /\ clampWhenFinished <$> actions c0 !! prevActionNameRef c0 = Some true) ->
    canPlayNext (step c0 e) = false ->
    (exists earlier fadeOut,
        calls (step c0 e)
        = earlier ++ [reset (prevActionNameRef (step c0 e));
                      crossFadeFrom (prevActionNameRef (step c0 e)) fadeOut 0.1;
                      setLoop (prevActionNameRef (step c0 e)) LoopOnce 1;
                      play (prevActionNameRef (step c0 e))])
    /\ clampWhenFinished <$> actions (step c0 e) !! prevActionNameRef (step c0 e)
       = Some true).
  { intros c0 e IH Hg'.
    destruct (step_shape c0 e)
      as [(Hc & Hp & Hg)|(s & n & a0 & _ & _ & _ & _ & _ & Hp & Hc & Hgn & Hcl)].
    - specialize (Hg Hg'). rewrite Hc, Hp, (step_clamp_closed c0 e _ Hg). by apply IH.
    - rewrite Hg' in Hgn. symmetry in Hgn. apply bool_decide_eq_false in Hgn.
      assert (Ho : oneShot n) by (by destruct (decide (oneShot n))).
      rewrite Hp, Hc. split; [|by apply Hcl].
      unfold startBlock. destruct (decide (oneShot n)); [|done].
      by eexists _, _. }
  induction Hr as [s|c e _ IH]; intros Hg p; subst p.
  - apply (Hstep (idleEffect (initial acts)) (StatusUpdate s)); [|done].
    rewrite idleEffect_spec. discriminate.
  - by apply Hstep.
Qed.

Lemma closed_gate_follows_one_shot_start_witness :
  let acts := actionsOf (mkAction 1 false) in
  let c := step (mount acts IDLE) (StatusUpdate JUMP_START) in
  clampWhenFinished <$> actions c !! prevActionNameRef c = Some true.
Proof.
  intros acts c.
  apply (closed_gate_follows_one_shot_start acts c).
  - apply reachable_step, reachable_mount.
  - reflexivity.
Defined.

(** An effect run leaves [clampWhenFinished] of an action as it is, or
    sets it on a one-shot clip. *)
Lemma statusEffect_clamp s c k :
  clampWhenFinished <$> actions (statusEffect s c) !! k
  = clampWhenFinished <$> actions c !! k
  \/ (oneShot k
      /\ clampWhenFinished <$> actions (statusEffect s c) !! k = Some true).
Proof.
  destruct (mapped_name s) as [n Hn].
  destruct (decide (k = n)) as [->|Hk];
    [|left; by rewrite (statusEffect_others s c n k Hn Hk)].
  destruct (canPlayNext c) eqn:Hg;
    [|left; by destruct (statusEffect_closed s c Hg) as (_ & _ & ->)].
  destruct (actions c !! n) as [a|] eqn:Ha;
    [|left; by rewrite (statusEffect_missing s c n Hn Ha), Ha].
  destruct (decide (n = prevActionNameRef c)) as [Heq|Hne].
  - left. clear Hg.
    by_status s c Hn; eff_run; eff_commit;
      rewrite ?clamp_alter_timeScale, ?Ha; first [ reflexivity | congruence ].
  - destruct (statusEffect_transition s c n a Hg Hn Ha Hne) as (_ & H1 & H2).
    destruct (decide (oneShot n)) as [Ho|Ho].
    + right. split; [done|]. by destruct (H1 Ho) as (_ & _ & ->).
    + left. by destruct (H2 Ho) as (_ & _ & ->).
Qed.

(** X8.  [clampWhenFinished] is only ever set on JUMP_START and
    JUMP_LAND: in every reachable state each action has the value it was
    registered with, or it is one of these two and has the value true. *)
Theorem clamp_only_on_one_shot_clips acts c k :
  reachable acts c ->
  clampWhenFinished <$> actions c !! k = clampWhenFinished <$> acts !! k
  \/ (oneShot k /\ clampWhenFinished <$> actions c !! k = Some true).
Proof.
  assert (Hstep : forall c0 e,
    (clampWhenFinished <$> actions c0 !! k = clampWhenFinished <$> acts !! k
     \/ (oneShot k /\ clampWhenFinished <$> actions c0 !! k = Some true)) ->
    clampWhenFinished <$> actions (step c0 e) !! k = clampWhenFinished <$> acts !! k
    \/ (oneShot k /\ clampWhenFinished <$> actions (step c0 e) !! k = Some true)).
  { intros c0 [s|clip] IH; cbn [step].
    - destruct (statusEffect_clamp s c0 k) as [->|?]; [done | by right].
    - by destruct (onFinished_frame clip c0) as (_ & -> & _). }
  induction 1 as [s|c e _ IH].
  - apply (Hstep (idleEffect (initial acts)) (StatusUpdate s)).
    left. by rewrite idleEffect_spec.
  - by apply Hstep.
Qed.

Lemma clamp_only_on_one_shot_clips_witness :
  let acts := actionsOf (mkAction 1 false) in
  let c := run (mount acts IDLE) [StatusUpdate RUN; StatusUpdate JUMP_START] in
  clampWhenFinished <$> actions c !! "JOG" = Some false.
Proof.
  intros acts c.
  destruct (clamp_only_on_one_shot_clips acts c "JOG") as [H|[[H|H] _]].
  - do 2 apply reachable_step. apply reachable_mount.
  - exact H.
  - discriminate H.
  - discriminate H.
Defined.

(** The IDLE action after an effect run for IDLE: as it was, or 1. *)
Lemma statusEffect_idle_speed c a :
  actions c !! "IDLE" = Some a ->
  timeScale <$> actions (statusEffect IDLE c) !! "IDLE" = Some (timeScale a)
  \/ timeScale <$> actions (statusEffect IDLE c) !! "IDLE" = Some 1%float.
Proof.
  intros Ha. destruct c as [g p A l]. unfold statusEffect, runEffect.
  cbn [canPlayNext prevActionNameRef actions calls] in *.
  destruct g; eff_run; eff_commit;
    rewrite ?lookup_alter_eq, ?Ha; cbn [fmap option_fmap option_map]; auto.
Qed.

(** X9.  Every clip has one speed.  With the IDLE clip registered (so
    that no status update throws), in every reachable state the
    timeScale of an action is the one it was registered with, or the
    value assigned last for a status mapped to it (0.45 for WALK and JOG,
    1 for JUMP_START, 0.88 for JUMP_LAND, 0 for JUMP_LOOP), or 1 for
    IDLE; the 0.5 assigned when a one-shot clip starts never survives an
    effect run. *)
Theorem each_clip_has_one_speed acts c k :
  reachable acts c ->
  is_Some (acts !! "IDLE") ->
  (forall s, statusEffectE s c = Returned (statusEffect s c))
  /\ (timeScale <$> actions c !! k = timeScale <$> acts !! k
  \/ (exists s v, statusToActionMap !! statusKey s = Some k
                  /\ overrideOf s = Some v
                  /\ timeScale <$> actions c !! k = Some v)
  \/ (k = "IDLE" /\ timeScale <$> actions c !! k = Some 1%float)).
Proof.
  intros Hreach Hidle. split.
  { intros s. apply registered_prev_returns.
    by apply (reachable_prev_registered acts). }
  clear Hidle. revert Hreach.
  assert (Hrun : forall s c0,
    timeScale <$> actions (statusEffect s c0) !! k = timeScale <$> actions c0 !! k
    \/ (exists s' v, statusToActionMap !! statusKey s' = Some k
                     /\ overrideOf s' = Some v
                     /\ timeScale <$> actions (statusEffect s c0) !! k = Some v)
    \/ (k = "IDLE"
        /\ timeScale <$> actions (statusEffect s c0) !! k = Some 1%float)).
  { intros s c0. destruct (mapped_name s) as [n Hn].
    destruct (decide (k = n)) as [->|Hk];
      [|left; by rewrite (statusEffect_others s c0 n k Hn Hk)].
    destruct (actions c0 !! n) as [a|] eqn:Ha;
      [|left; by rewrite (statusEffect_missing s c0 n Hn Ha), Ha].
    destruct (overrideOf s) as [v|] eqn:Hv.
    - right. left. exists s, v. repeat split; [done..|].
      by apply (statusEffect_override s c0 n a).
    - destruct s; try discriminate Hv. vm_compute in Hn. simplify_eq.
      destruct (statusEffect_idle_speed c0 a Ha) as [->|H1].
      + by left.
      + right. right. done. }
  assert (Hstep : forall c0 e,
    (timeScale <$> actions c0 !! k = timeScale <$> acts !! k
     \/ (exists s v, statusToActionMap !! statusKey s = Some k
                     /\ overrideOf s = Some v
                     /\ timeScale <$> actions c0 !! k = Some v)
     \/ (k = "IDLE" /\ timeScale <$> actions c0 !! k = Some 1%float)) ->
    timeScale <$> actions (step c0 e) !! k = timeScale <$> acts !! k
    \/ (exists s v, statusToActionMap !! statusKey s = Some k
                    /\ overrideOf s = Some v
                    /\ timeScale <$> actions (step c0 e) !! k = Some v)
    \/ (k = "IDLE" /\ timeScale <$> actions (step c0 e) !! k = Some 1%float)).
  { intros c0 [s|clip] IH; cbn [step].
    - destruct (Hrun s c0) as [->|H]; [exact IH | right; exact H].
    - by destruct (onFinished_frame clip c0) as (_ & -> & _). }
  induction 1 as [s|c e _ IH].
  - apply (Hstep (idleEffect (initial acts)) (StatusUpdate s)).
    left. by rewrite idleEffect_spec.
  - by apply Hstep.
Qed.

Lemma each_clip_has_one_speed_witness :
  let acts := actionsOf (mkAction 1 false) in
  let c := step (mount acts IDLE) (StatusUpdate JUMP_START) in
  timeScale <$> actions c !! "JUMP_START" = Some 1%float
  /\ (timeScale <$> actions c !! "JUMP_START" = timeScale <$> acts !! "JUMP_START"
      \/ (exists s v, statusToActionMap !! statusKey s = Some "JUMP_START"
                      /\ overrideOf s = Some v
                      /\ timeScale <$> actions c !! "JUMP_START" = Some v)
      \/ ("JUMP_START" = "IDLE"
          /\ timeScale <$> actions c !! "JUMP_START" = Some 1%float)).
Proof.
  intros acts c. split; [reflexivity|].
  apply (each_clip_has_one_speed acts c "JUMP_START").
  - apply reachable_step, reachable_mount.
  - by eexists.
Defined.

(** X10.  Over any sequence of status updates and finished events the
    controller neither registers nor removes an action; and on an action
    to which none of the processed statuses is mapped it makes no call
    and assigns neither timeScale nor [clampWhenFinished].  (Such an
    action can still be handed to [crossFadeFrom] as the action to fade
    out; what the library then does to it is outside the controller.) *)
Theorem untouched_actions es c k :
  (forall s, StatusUpdate s ∈ es -> statusToActionMap !! statusKey s <> Some k) ->
  dom (actions (run c es)) = dom (actions c)
  /\ timeScale <$> actions (run c es) !! k = timeScale <$> actions c !! k
  /\ clampWhenFinished <$> actions (run c es) !! k
     = clampWhenFinished <$> actions c !! k
  /\ exists made, calls (run c es) = calls c ++ made
                  /\ Forall (fun call => target call <> k) made.
Proof.
  intros Hes. split; [apply run_dom|].
  assert (Hk : actions (run c es) !! k = actions c !! k
               /\ exists made, calls (run c es) = calls c ++ made
                               /\ Forall (fun call => target call <> k) made).
  { revert c Hes. induction es as [|e es IH]; intros c Hes.
    - split; [done|]. exists []. by rewrite app_nil_r.
    - cbn [run foldl]. unfold run in IH.
      destruct (IH (step c e)) as (Hact & made & Hcalls & Hmade).
      { intros s Hs. apply Hes. by right. }
      rewrite Hact, Hcalls. split.
      + destruct e as [s|clip]; cbn [step].
        * destruct (mapped_name s) as [n Hn].
          apply (statusEffect_others s c n k Hn).
          intros ->. apply (Hes s); [left | done].
        * by destruct (onFinished_frame clip c) as (_ & -> & _).
      + destruct (step_shape c e)
          as [(-> & _)|(s & n & a & -> & Hn & _ & _ & _ & _ & -> & _)].
        * by exists made.
        * exists (startBlock (actions c) (prevActionNameRef c) n ++ made).
          split; [by rewrite app_assoc|].
          apply Forall_app. split; [|done].
          assert (Hnk : n <> k).
          { intros ->. apply (Hes s); [left | done]. }
          unfold startBlock. destruct (decide (oneShot n));
            repeat (apply List.Forall_cons; [exact Hnk|]); apply List.Forall_nil. }
  destruct Hk as (-> & Hmade). done.
Qed.

Lemma untouched_actions_witness :
  let c := mkController true "IDLE" (actionsOf (mkAction 1 false)) [] in
  timeScale <$>
    actions (run c [StatusUpdate RUN; StatusUpdate JUMP_START; Finished "JUMP_START"])
    !! "WALK" = Some 1%float.
Proof.
  intros c.
  destruct (untouched_actions
              [StatusUpdate RUN; StatusUpdate JUMP_START; Finished "JUMP_START"]
              c "WALK") as (_ & H & _).
  - intros s Hs. apply list_elem_of_In in Hs.
    destruct Hs as [Hs|[Hs|[Hs|[]]]]; inversion Hs; discriminate.
  - exact H.
Defined.

(** X13.  A new status never starts an endless chain of renders: within
    three effect runs the component rests or a run has thrown.  From a
    controller whose reference names a registered action no run throws,
    and the controller the component rests in is the one two effect runs
    give, on which a further run changes nothing. *)
Theorem status_change_ends_within_three_renders s c prev fuel :
  React.effectRuns prev (statusDeps s c) = true ->
  (exists outcome, renderLoop (3 + fuel) prev s c = Some outcome)
  /\ (is_Some (actions c !! prevActionNameRef c) ->
      renderLoop (3 + fuel) prev s c
      = Some (Returned (statusEffect s (statusEffect s c)))
      /\ statusEffectE s (statusEffect s (statusEffect s c))
         = Returned (statusEffect s (statusEffect s c))).
Proof.
  intros Hruns.
  assert (Hdeps : forall c1 c2, canPlayNext c2 <> canPlayNext c1 ->
            React.effectRuns (Some (statusDeps s c1)) (statusDeps s c2) = true).
  { intros c1 c2 Hne. cbn [React.effectRuns]. apply bool_decide_eq_true.
    unfold statusDeps. intros Heq. apply Hne. by simplify_eq. }
  assert (Hloop : forall o1 o2 o3,
            (statusEffectE s c = Returned (statusEffect s c) \/ statusEffectE s c = Thrown o1) ->
            (statusEffectE s (statusEffect s c)
             = Returned (statusEffect s (statusEffect s c))
             \/ statusEffectE s (statusEffect s c) = Thrown o2) ->
            (statusEffectE s (statusEffect s (statusEffect s c))
             = Returned (statusEffect s (statusEffect s (statusEffect s c)))
             \/ statusEffectE s (statusEffect s (statusEffect s c)) = Thrown o3) ->
            exists outcome,
              renderLoop (3 + fuel) prev s c = Some outcome
              /\ (statusEffectE s c = Returned (statusEffect s c) ->
                  statusEffectE s (statusEffect s c)
                  = Returned (statusEffect s (statusEffect s c)) ->
                  outcome = Returned (statusEffect s (statusEffect s c)))).
  { intros o1 o2 o3 H1 H2 H3.
    change (3 + fuel) with (S (S (S fuel))). cbn [renderLoop]. rewrite Hruns.
    destruct H1 as [->| ->]; [|eexists; split; [done | discriminate]].
    case_bool_decide as G1.
    { eexists. split; [done|]. intros _ _. by rewrite (same_gate_settled s c G1). }
    rewrite (Hdeps c (statusEffect s c) G1).
    destruct H2 as [->| E2]; [|rewrite E2; eexists; split; [done|];
                                intros _ E2'; rewrite E2' in E2; discriminate].
    case_bool_decide as G2; [by eexists|].
    rewrite (Hdeps (statusEffect s c) (statusEffect s (statusEffect s c)) G2).
    destruct H3 as [->| E3].
    - rewrite (proj1 (runs_settle s c)). rewrite bool_decide_true by done.
      by eexists.
    - exfalso.
      (* a third run starts from a closed gate, so it makes no transition *)
      assert (Hret : statusEffectE s (statusEffect s (statusEffect s c))
                     = Returned (statusEffect s (statusEffect s (statusEffect s c)))).
      { apply statusEffectE_returns. intros n Hn Hreg Hg2 _. exfalso.
        destruct (canPlayNext (statusEffect s c)) eqn:Hg1; [congruence|].
        destruct (canPlayNext c) eqn:Hg0; [|done].
        destruct (registered_dom (actions (statusEffect s (statusEffect s c)))
                    (actions c) n) as [a Ha];
          [by rewrite !statusEffect_dom | done |].
        pose proof (open_run_settled s c n a Hg0 Hn Ha) as Hs1.
        rewrite (settled_fixpoint s n _ Hn Hs1) in Hg2. congruence. }
      rewrite Hret in E3. discriminate. }
  split.
  - destruct (statusEffectE_cases s c) as [o1 H1].
    destruct (statusEffectE_cases s (statusEffect s c)) as [o2 H2].
    destruct (statusEffectE_cases s (statusEffect s (statusEffect s c))) as [o3 H3].
    destruct (Hloop o1 o2 o3 H1 H2 H3) as (o & Ho & _). by exists o.
  - intros Hp.
    pose proof (registered_prev_after s c Hp) as Hp1.
    pose proof (registered_prev_after s _ Hp1) as Hp2.
    pose proof (registered_prev_returns s c Hp) as H1.
    pose proof (registered_prev_returns s _ Hp1) as H2.
    pose proof (registered_prev_returns s _ Hp2) as H3.
    destruct (Hloop c c c (or_introl H1) (or_introl H2) (or_introl H3))
      as (o & Ho & Heq).
    rewrite Ho, (Heq H1 H2). split; [done|].
    rewrite H3. by rewrite (proj1 (runs_settle s c)).
Qed.

Lemma status_change_ends_within_three_renders_witness :
  let c := mkController false "JUMP_START" (actionsOf (mkAction 1 false)) [] in
  renderLoop 3 (Some (statusDeps JUMP_START c)) JUMP_LAND c
  = Some (Returned (statusEffect JUMP_LAND (statusEffect JUMP_LAND c))).
Proof.
  intros c.
  destruct (status_change_ends_within_three_renders JUMP_LAND c
              (Some (statusDeps JUMP_START c)) 0 eq_refl) as [_ H].
  destruct H as [H _]; [by eexists | exact H].
Defined.

End LobsterMore.

(* ===================================================================== *)
(** ** Properties of the clips array                                      *)
(* ===================================================================== *)

Module MotionFacts.

Import Lobster Motion.

Local Open Scope list_scope.

Lemma rename_names {T} (name : string) (l : list (AnimationClip T)) :
  clip_name <$> (rename name <$> l) = replicate (length l) name.
Proof. induction l as [|r l IH]; [done|]. cbn. by f_equal. Qed.

Lemma rename_rest {T} (name : string) (l : list (AnimationClip T)) :
  clip_rest <$> (rename name <$> l) = clip_rest <$> l.
Proof. induction l as [|r l IH]; [done|]. cbn. by f_equal. Qed.

Lemma elem_of_rename {T} (name : string) (l : list (AnimationClip T)) r :
  r ∈ rename name <$> l -> clip_name r = name.
Proof. intros (r0 & -> & _)%list_elem_of_fmap. done. Qed.

Lemma rename_nonempty {T} (name : string) (l : list (AnimationClip T)) :
  l <> [] -> exists r, r ∈ rename name <$> l /\ clip_name r = name.
Proof.
  destruct l as [|r l]; [done|]. intros _.
  exists (rename name r). split; [left | done].
Qed.

(** X11.  The clips array holds the animations of the six motion files in
    the order idle, walk, run, start, loop, land, each with its content
    kept and its name replaced by the clip name of its file, whatever
    name it was loaded with.  Every clip has a name some status is mapped
    to; and when no motion file is empty, every status is mapped to the
    name of some clip. *)
Theorem clips_are_renamed_in_order {T} (fbx : MotionFiles T) :
  clip_rest <$> clips fbx
  = clip_rest <$> (fbx_idle fbx ++ fbx_walk fbx ++ fbx_run fbx
                   ++ fbx_start fbx ++ fbx_loop fbx ++ fbx_land fbx)
  /\ clip_name <$> clips fbx
     = replicate (length (fbx_idle fbx)) "IDLE"
       ++ replicate (length (fbx_walk fbx)) "WALK"
       ++ replicate (length (fbx_run fbx)) "JOG"
       ++ replicate (length (fbx_start fbx)) "JUMP_START"
       ++ replicate (length (fbx_loop fbx)) "JUMP_LOOP"
       ++ replicate (length (fbx_land fbx)) "JUMP_LAND"
  /\ (forall r, r ∈ clips fbx ->
        clip_name r ∈ clipNames
        /\ exists s, statusToActionMap !! statusKey s = Some (clip_name r))
  /\ (fbx_idle fbx <> [] -> fbx_walk fbx <> [] -> fbx_run fbx <> [] ->
      fbx_start fbx <> [] -> fbx_loop fbx <> [] -> fbx_land fbx <> [] ->
      forall s, exists r,
        r ∈ clips fbx /\ statusToActionMap !! statusKey s = Some (clip_name r)).
Proof.
  unfold clips. split; [|split; [|split]].
  - by rewrite !fmap_app, !rename_rest.
  - by rewrite !fmap_app, !rename_names.
  - intros r Hr. rewrite !elem_of_app in Hr.
    destruct Hr as [Hr|[Hr|[Hr|[Hr|[Hr|Hr]]]]];
      rewrite (elem_of_rename _ _ _ Hr); (split; [apply list_elem_of_In; simpl; tauto|]).
    + by exists IDLE.
    + by exists WALK.
    + by exists RUN.
    + by exists JUMP_START.
    + by exists JUMP_IDLE.
    + by exists JUMP_LAND.
  - intros Hidle Hwalk Hrun Hstart Hloop Hland s.
    destruct (rename_nonempty "IDLE" _ Hidle) as (r1 & H1 & N1).
    destruct (rename_nonempty "WALK" _ Hwalk) as (r2 & H2 & N2).
    destruct (rename_nonempty "JOG" _ Hrun) as (r3 & H3 & N3).
    destruct (rename_nonempty "JUMP_START" _ Hstart) as (r4 & H4 & N4).
    destruct (rename_nonempty "JUMP_LOOP" _ Hloop) as (r5 & H5 & N5).
    destruct (rename_nonempty "JUMP_LAND" _ Hland) as (r6 & H6 & N6).
    destruct s;
      [exists r1 | exists r2 | exists r3 | exists r4 | exists r5 | exists r5 | exists r6];
      rewrite !elem_of_app;
      (split; [tauto|]);
      first [rewrite N1 | rewrite N2 | rewrite N3 | rewrite N4 | rewrite N5 | rewrite N6];
      reflexivity.
Qed.

Lemma clips_are_renamed_in_order_witness :
  let one := fun name : string => [mkClip name tt] in
  let fbx := mkMotionFiles (one "mixamo.com") (one "mixamo.com") (one "mixamo.com")
                           (one "mixamo.com") (one "mixamo.com") (one "mixamo.com") in
  exists r, r ∈ clips fbx
            /\ statusToActionMap !! statusKey JUMP_FALL = Some (clip_name r).
Proof.
  intros one fbx.
  apply (proj2 (proj2 (proj2 (clips_are_renamed_in_order fbx)))); discriminate.
Defined.

End MotionFacts.

(* ===================================================================== *)
(** ** Properties of the shadow flags effect                              *)
(* ===================================================================== *)

Module SceneFacts.

Import Scene.

Local Open Scope list_scope.

(** The objects below a list of children, once each child is known to
    be visited as stated. *)
Lemma objects_children {T} (callback : Own T -> Own T)
    (children : list (Object3D T)) :
  Forall (fun o => objects (traverse callback o)
                   = List.map callback (objects o)) children ->
  List.flat_map objects (List.map (traverse callback) children)
  = List.map callback (List.flat_map objects children).
Proof.
  induction 1 as [|o children Ho _ IH]; [done|].
  cbn [List.map List.flat_map]. by rewrite List.map_app, Ho, IH.
Qed.

(** Traversing visits the objects of the graph in order and replaces
    each by what the callback makes of it. *)
Lemma objects_traverse {T} (callback : Own T -> Own T) (o : Object3D T) :
  objects (traverse callback o) = List.map callback (objects o).
Proof.
  induction o as [own children IH] using Object3D_forall_ind.
  cbn [traverse objects List.map]. f_equal. by apply objects_children.
Qed.

Lemma traverse_twice {T} (f g : Own T -> Own T) (o : Object3D T) :
  traverse f (traverse g o) = traverse (fun x => f (g x)) o.
Proof.
  induction o as [own children IH] using Object3D_forall_ind.
  cbn [traverse]. f_equal. rewrite List.map_map. by apply List.map_ext_Forall.
Qed.

Lemma traverse_ext {T} (f g : Own T -> Own T) (o : Object3D T) :
  (forall x, f x = g x) -> traverse f o = traverse g o.
Proof.
  intros Hfg. induction o as [own children IH] using Object3D_forall_ind.
  cbn [traverse]. rewrite Hfg. f_equal. by apply List.map_ext_Forall.
Qed.

(** X12.  After the shadow effect every object of the avatar scene, at
    any depth, casts and receives shadows and is exempt from frustum
    culling; the objects are the same in number and order and keep
    everything else; running the effect again changes nothing. *)
Theorem shadow_flags_reach_every_object {T} (scene : Object3D T) :
  Forall (fun it => castShadow it = true /\ receiveShadow it = true
                    /\ frustumCulled it = false)
         (objects (shadowEffect scene))
  /\ rest <$> objects (shadowEffect scene) = rest <$> objects scene
  /\ length (objects (shadowEffect scene)) = length (objects scene)
  /\ shadowEffect (shadowEffect scene) = shadowEffect scene.
Proof.
  unfold shadowEffect. rewrite objects_traverse. split; [|split; [|split]].
  - apply Forall_forall. intros it Hit.
    apply list_elem_of_In, List.in_map_iff in Hit. by destruct Hit as (x & <- & _).
  - induction (objects scene) as [|x l IH]; [done|]. cbn. by f_equal.
  - apply List.length_map.
  - rewrite traverse_twice. by apply traverse_ext.
Qed.

End SceneFacts.
